(** * A shallow embedding of package [uuid] (pkg/uuid/uuid.go)

    The Go value type [UUID = [16]byte] is modelled as a list of bytes whose
    length is 16; a byte is an integer of [Z] in the range [0, 256).  Go
    strings are byte strings, modelled by [string] (one [ascii] per byte).
    A Go result pair [(UUID, error)] is a pair whose second component is
    [None] for a [nil] error.  Methods with a pointer receiver take the
    receiver's current value and return its value after the call. *)

From Stdlib Require Import ZArith List String Ascii Bool Lia.
Import ListNotations.

Local Open Scope Z_scope.

(** ** Bytes, arrays and slices *)

Definition byte := Z.

Definition is_byte (b : Z) : Prop := 0 <= b < 256.

Definition is_byteb (b : Z) : bool := (0 <=? b) && (b <? 256).

(** The conversion [byte(x)] of an integer: the low eight bits. *)
Definition to_byte (x : Z) : byte := x mod 256.

(** [a[i]]; every index used by the package is a constant below 16. *)
Definition index (a : list byte) (i : nat) : byte := nth i a 0.

Notation "a .[ i ]" := (index a i) (at level 1, format "a .[ i ]").

(** [a[i] = v]; outside the array the Go program does not compile (constant
    index) or panics, the model leaves the list as it is. *)
Fixpoint store (a : list byte) (i : nat) (v : byte) : list byte :=
  match a, i with
  | [], _ => []
  | _ :: r, O => v :: r
  | x :: r, S j => x :: store r j v
  end.

(** [a[lo:hi]] *)
Definition slice (a : list byte) (lo hi : nat) : list byte :=
  firstn (hi - lo) (skipn lo a).

(** The builtin [copy(dst, src)]: the value of [dst] afterwards. *)
Definition copy (dst src : list byte) : list byte :=
  (firstn (List.length dst) src ++ skipn (List.length src) dst)%list.

(** The conversions [string(b)] and [[]byte(s)]. *)
Definition byte_of_ascii (c : ascii) : byte := Z.of_N (N_of_ascii c).

Definition ascii_of_byte (b : byte) : ascii := ascii_of_N (Z.to_N b).

Fixpoint string_of_bytes (b : list byte) : string :=
  match b with
  | [] => EmptyString
  | x :: r => String (ascii_of_byte x) (string_of_bytes r)
  end.

Fixpoint bytes_of_string (s : string) : list byte :=
  match s with
  | EmptyString => []
  | String c r => byte_of_ascii c :: bytes_of_string r
  end.

(** ** The library functions the package calls *)

Module strings.

(** [strings.ReplaceAll(s, old, new)] for a one-byte [old], the only way
    the package calls it. *)
Fixpoint ReplaceAll (s : string) (old : ascii) (new : string) : string :=
  match s with
  | EmptyString => EmptyString
  | String c r =>
      if Ascii.eqb c old then (new ++ ReplaceAll r old new)%string
      else String c (ReplaceAll r old new)
  end.

End strings.

Module hex.

Inductive Error : Type :=
| InvalidByteError (c : ascii)
| ErrLength.

Definition hextable : string := "0123456789abcdef".

Definition digit (n : Z) : ascii :=
  match String.get (Z.to_nat n) hextable with
  | Some c => c
  | None => "0"%char
  end.

(** [hex.EncodeToString], which is also what the verb [%x] of package
    [fmt] prints for a byte slice. *)
Fixpoint EncodeToString (src : list byte) : string :=
  match src with
  | [] => EmptyString
  | v :: r =>
      String (digit (Z.shiftr v 4))
        (String (digit (Z.land v 15)) (EncodeToString r))
  end.

Definition fromHexChar (c : ascii) : option Z :=
  let n := byte_of_ascii c in
  if (48 <=? n) && (n <=? 57) then Some (n - 48)
  else if (97 <=? n) && (n <=? 102) then Some (n - 97 + 10)
  else if (65 <=? n) && (n <=? 70) then Some (n - 65 + 10)
  else None.

(** [hex.DecodeString]: the bytes decoded before the first error, and the
    error. *)
Fixpoint DecodeString (s : string) : list byte * option Error :=
  match s with
  | EmptyString => ([], None)
  | String p EmptyString =>
      match fromHexChar p with
      | None => ([], Some (InvalidByteError p))
      | Some _ => ([], Some ErrLength)
      end
  | String p (String q r) =>
      match fromHexChar p with
      | None => ([], Some (InvalidByteError p))
      | Some a =>
          match fromHexChar q with
          | None => ([], Some (InvalidByteError q))
          | Some b =>
              let '(d, e) := DecodeString r in
              (Z.lor (Z.shiftl a 4) b :: d, e)
          end
      end
  end.

End hex.

(** ** Types, constants and errors of the package *)

Definition UUID := list byte.

Definition Version := byte.

Definition Variant := byte.

Definition VersionUnknown : Version := 0.
Definition VersionTimeBased : Version := 1.
Definition VersionDCESecurity : Version := 2.
Definition VersionNameBasedMD5 : Version := 3.
Definition VersionRandom : Version := 4.
Definition VersionNameBasedSHA1 : Version := 5.

Definition VariantNCS : Variant := 0.
Definition VariantRFC4122 : Variant := 1.
Definition VariantMicrosoft : Variant := 2.
Definition VariantFuture : Variant := 3.

(** The values of type [UUID]: sixteen bytes. *)
Definition wf_uuid (u : UUID) : Prop :=
  List.length u = 16%nat /\ Forall is_byte u.

Definition wf_uuidb (u : UUID) : bool :=
  Nat.eqb (List.length u) 16 && forallb is_byteb u.

Definition Nil : UUID := repeat 0 16.

(** The errors the package returns.  The first three are built with
    [fmt.Errorf]; [ForeignError] is an error of another package (the random
    source, the JSON decoder) handed on as it is. *)
Inductive error : Type :=
| InvalidLength (n : nat)          (* "invalid UUID length: %d" *)
| InvalidByteLength (n : nat)      (* "invalid UUID byte length: %d" *)
| InvalidFormat (e : hex.Error)    (* "invalid UUID format: %v" *)
| CannotScan (T : string)          (* "cannot scan %T into UUID" *)
| ForeignError (msg : string).

(** The spec's error kinds. *)
Definition FormatError (e : error) : Prop :=
  match e with
  | InvalidLength _ | InvalidByteLength _ | InvalidFormat _ => True
  | _ => False
  end.

Definition UnsupportedInputError (e : error) : Prop :=
  match e with
  | CannotScan _ => True
  | _ => False
  end.

(** ** Parsing and formatting *)

Definition Parse (s : string) : UUID * option error :=
  let uuid := Nil in
  let s := strings.ReplaceAll s "-" EmptyString in
  let s := strings.ReplaceAll s "{" EmptyString in
  let s := strings.ReplaceAll s "}" EmptyString in
  if negb (Nat.eqb (String.length s) 32) then
    (uuid, Some (InvalidLength (String.length s)))
  else
    let '(decoded, err) := hex.DecodeString s in
    match err with
    | Some e => (uuid, Some (InvalidFormat e))
    | None => (copy uuid decoded, None)
    end.

Definition ParseBytes (b : list byte) : UUID * option error :=
  let uuid := Nil in
  if negb (Nat.eqb (List.length b) 16) then
    (uuid, Some (InvalidByteLength (List.length b)))
  else (copy uuid b, None).

Definition FromString (s : string) : UUID * option error := Parse s.

Module UUID.

(** [fmt.Sprintf("%x-%x-%x-%x-%x", u[:4], u[4:6], u[6:8], u[8:10], u[10:])] *)
Definition String (u : UUID) : string :=
  (hex.EncodeToString (slice u 0 4) ++ "-" ++
   hex.EncodeToString (slice u 4 6) ++ "-" ++
   hex.EncodeToString (slice u 6 8) ++ "-" ++
   hex.EncodeToString (slice u 8 10) ++ "-" ++
   hex.EncodeToString (slice u 10 16))%string.

Definition URN (u : UUID) : string := ("urn:uuid:" ++ String u)%string.

Definition Bytes (u : UUID) : list byte := slice u 0 16.

Definition Version (u : UUID) : Version := Z.shiftr u.[6] 4.

Definition Variant (u : UUID) : Variant :=
  if Z.land u.[8] 128 =? 0 then VariantNCS
  else if Z.land u.[8] 192 =? 128 then VariantRFC4122
  else if Z.land u.[8] 224 =? 192 then VariantMicrosoft
  else VariantFuture.

Definition Equal (u other : UUID) : bool :=
  if list_eq_dec Z.eq_dec u other then true else false.

Definition IsNil (u : UUID) : bool := Equal u Nil.

(** The loop of [Compare]: [n] iterations are left, the next one looks at
    index [i]. *)
Fixpoint Compare_loop (n i : nat) (u other : UUID) : Z :=
  match n with
  | O => 0
  | S n' =>
      if u.[i] <? other.[i] then -1
      else if u.[i] >? other.[i] then 1
      else Compare_loop n' (S i) u other
  end.

Definition Compare (u other : UUID) : Z := Compare_loop 16 0 u other.


(** *** The adapters *)

Definition MarshalText (u : UUID) : list byte * option error :=
  (bytes_of_string (String u), None).

(** [UnmarshalText]: the receiver afterwards and the error. *)
Definition UnmarshalText (u : UUID) (text : list byte) : UUID * option error :=
  let '(parsed, err) := Parse (string_of_bytes text) in
  match err with
  | Some e => (u, Some e)
  | None => (parsed, None)
  end.

Section JSON.

(** [json.Unmarshal(data, &s)] for a string variable [s] that holds the
    empty string: the value of [s] afterwards and the error. *)
Variable json_Unmarshal : list byte -> string * option error.

Definition UnmarshalJSON (u : UUID) (data : list byte) : UUID * option error :=
  let '(s, err) := json_Unmarshal data in
  match err with
  | Some e => (u, Some e)
  | None =>
      let '(parsed, err) := Parse s in
      match err with
      | Some e => (u, Some e)
      | None => (parsed, None)
      end
  end.

End JSON.

Section JSONMarshal.

(** [json.Marshal(s)] for a string [s]: the bytes and the error. *)
Variable json_Marshal : string -> list byte * option error.

Definition MarshalJSON (u : UUID) : list byte * option error :=
  json_Marshal (String u).

End JSONMarshal.

(** The dynamic values [Scan] can be handed as its [interface{}]
    argument: [nil], a string, a byte slice, or a value of another type,
    of which [%T] prints the name. *)
Inductive value : Type :=
| VNil
| VString (s : string)
| VBytes (b : list byte)
| VInt64 (n : Z)
| VBool (b : bool)
| VOther (T : string).

Definition type_name (v : value) : string :=
  match v with
  | VNil => "<nil>"
  | VString _ => "string"
  | VBytes _ => "[]uint8"
  | VInt64 _ => "int64"
  | VBool _ => "bool"
  | VOther T => T
  end.


(** [Scan]: the receiver afterwards and the error. *)
Definition Scan (u : UUID) (v : value) : UUID * option error :=
  match v with
  | VNil => (Nil, None)
  | VString s =>
      let '(parsed, err) := Parse s in
      match err with
      | Some e => (u, Some e)
      | None => (parsed, None)
      end
  | VBytes b =>
      if Nat.eqb (List.length b) 16 then (copy u b, None)
      else
        let '(parsed, err) := Parse (string_of_bytes b) in
        match err with
        | Some e => (u, Some e)
        | None => (parsed, None)
        end
  | _ => (u, Some (CannotScan (type_name v)))
  end.

End UUID.

(** ** Generation *)

(** [rand.Read(b)]: the content of [b] after the call, and the error. *)
Definition Reader := list byte -> list byte * option error.

Section Generation.

Variable rand_Read : Reader.

(** [time.Now().UnixNano()], an [int64]. *)
Variable now : Z.

Definition generateV4 : UUID * option error :=
  let uuid := Nil in
  let '(uuid, err) := rand_Read uuid in
  match err with
  | Some e => (uuid, Some e)
  | None =>
      let uuid := store uuid 6 (Z.lor (Z.land uuid.[6] 15) 64) in
      let uuid := store uuid 8 (Z.lor (Z.land uuid.[8] 63) 128) in
      (uuid, None)
  end.

Definition generateV1 : UUID * option error :=
  let uuid := Nil in
  let '(uuid, err) := rand_Read uuid in
  match err with
  | Some e => (uuid, Some e)
  | None =>
      let uuid := store uuid 0 (to_byte now) in
      let uuid := store uuid 1 (to_byte (Z.shiftr now 8)) in
      let uuid := store uuid 2 (to_byte (Z.shiftr now 16)) in
      let uuid := store uuid 3 (to_byte (Z.shiftr now 24)) in
      let uuid := store uuid 4 (to_byte (Z.shiftr now 32)) in
      let uuid := store uuid 5 (to_byte (Z.shiftr now 40)) in
      let uuid := store uuid 6 (Z.land (to_byte (Z.shiftr now 48)) 15) in
      let uuid := store uuid 6 (Z.lor uuid.[6] 16) in
      let uuid := store uuid 8 (Z.lor (Z.land uuid.[8] 63) 128) in
      (uuid, None)
  end.

Definition New : UUID := let '(uuid, _) := generateV4 in uuid.

Definition NewV4 : UUID * option error := generateV4.

Definition NewV1 : UUID * option error := generateV1.

End Generation.

(** [Must]: [None] stands for the panic. *)
Definition Must (r : UUID * option error) : option UUID :=
  let '(uuid, err) := r in
  match err with
  | Some _ => None
  | None => Some uuid
  end.

Definition MustNew (rand_Read : Reader) : option UUID := Must (NewV4 rand_Read).

Definition MustParse (s : string) : option UUID := Must (Parse s).

(** The interface [Generator] and its one implementation. *)
Class Generator (G : Type) : Type := {
  Generate : G -> Reader -> Z -> UUID * option error;
  GeneratorVersion : G -> Version
}.

Record UUIDGenerator : Type := { version : Version }.

Module UUIDGenerator.

Definition Generate (g : UUIDGenerator) (rand_Read : Reader) (now : Z)
  : UUID * option error :=
  if version g =? VersionRandom then generateV4 rand_Read
  else if version g =? VersionTimeBased then generateV1 rand_Read now
  else generateV4 rand_Read.

Definition Version (g : UUIDGenerator) : Version := version g.

End UUIDGenerator.

#[export] Instance UUIDGenerator_Generator : Generator UUIDGenerator := {
  Generate := UUIDGenerator.Generate;
  GeneratorVersion := UUIDGenerator.Version
}.

Definition NewGenerator (version : Version) : UUIDGenerator :=
  {| version := version |}.

(** * Notions of the specification *)

(** The integer a byte sequence spells when read least-significant byte
    first. *)
Fixpoint le_value (l : list byte) : Z :=
  match l with
  | [] => 0
  | b :: r => b + 256 * le_value r
  end.

(** The low [8 * n] bits of [x] as [n] bytes, least-significant byte first. *)
Fixpoint le_bytes (n : nat) (x : Z) : list byte :=
  match n with
  | O => []
  | S n' => to_byte x :: le_bytes n' (Z.shiftr x 8)
  end.

(** [s[i]] for a string. *)
Definition char_at (s : string) (i : nat) : ascii :=
  match String.get i s with
  | Some c => c
  | None => Ascii.zero
  end.

Fixpoint string_forallb (p : ascii -> bool) (s : string) : bool :=
  match s with
  | EmptyString => true
  | String c r => p c && string_forallb p r
  end.

(** The place of a character in a string of digits. *)
Fixpoint position (c : ascii) (digits : string) : option Z :=
  match digits with
  | EmptyString => None
  | String d r =>
      if Ascii.eqb c d then Some 0
      else match position c r with
           | Some n => Some (n + 1)
           | None => None
           end
  end.

(** The value of a hexadecimal digit of either case. *)
Definition hex_value (c : ascii) : option Z :=
  match position c "0123456789abcdef" with
  | Some n => Some n
  | None => position c "0123456789ABCDEF"
  end.

Definition is_hex_digit (c : ascii) : bool :=
  match hex_value c with
  | Some _ => true
  | None => false
  end.

Definition is_lower_hex (c : ascii) : bool :=
  match position c "0123456789abcdef" with
  | Some _ => true
  | None => false
  end.

(** The separators [Parse] drops, and a string without them. *)
Definition is_separator (c : ascii) : bool :=
  Ascii.eqb c "-" || Ascii.eqb c "{" || Ascii.eqb c "}".

Fixpoint strip (s : string) : string :=
  match s with
  | EmptyString => EmptyString
  | String c r => if is_separator c then strip r else String c (strip r)
  end.

(** The bytes that a string of hexadecimal digits spells, two digits a byte,
    the first digit of a pair being the high nibble; a character that is
    not a digit counts as zero. *)
Definition digit_value (c : ascii) : Z :=
  match hex_value c with
  | Some n => n
  | None => 0
  end.

Fixpoint bytes_of_hex (s : string) : list byte :=
  match s with
  | String p (String q r) => 16 * digit_value p + digit_value q :: bytes_of_hex r
  | _ => []
  end.

(** The first character of a string that is not a hexadecimal digit. *)
Fixpoint first_non_hex (s : string) : option ascii :=
  match s with
  | EmptyString => None
  | String c r => if is_hex_digit c then first_non_hex r else Some c
  end.

(** The places of the hyphens in the canonical text. *)
Definition hyphen_position (i : nat) : bool :=
  Nat.eqb i 8 || Nat.eqb i 13 || Nat.eqb i 18 || Nat.eqb i 23.

(** What a pointer receiver holds after the result of [Parse] is handed to
    it: the parsed value on success, its old value on an error. *)
Definition assign_parsed (u : UUID) (r : UUID * option error) : UUID * option error :=
  match r with
  | (parsed, None) => (parsed, None)
  | (_, Some e) => (u, Some e)
  end.

(** An input of [Scan] that is neither [nil], nor a string, nor a sequence
    of exactly sixteen bytes. *)
Definition other_shape (v : UUID.value) : Prop :=
  v <> UUID.VNil /\ (forall s : string, v <> UUID.VString s) /\
  (forall b : list byte, List.length b = 16%nat -> v <> UUID.VBytes b).

(** An input of [Scan] of a type other than string and byte slice. *)
Definition other_type (v : UUID.value) : bool :=
  match v with
  | UUID.VNil | UUID.VString _ | UUID.VBytes _ => false
  | _ => true
  end.

(** ** Sample values *)

Definition sample_text : string := "550e8400-e29b-41d4-a716-446655440000".

Definition sample_uuid : UUID :=
  [85; 14; 132; 0; 226; 155; 65; 212; 167; 22; 68; 102; 85; 68; 0; 0].

Definition sample_fill : list byte :=
  [255; 1; 2; 3; 4; 5; 246; 7; 72; 9; 10; 11; 12; 13; 14; 15].

(** A random source that fills the buffer with [sample_fill]. *)
Definition sample_Read : Reader := fun _ => (sample_fill, None).

(** A random source that fails and leaves the buffer as it is. *)
Definition failing_Read : Reader :=
  fun b => (b, Some (ForeignError "entropy source unavailable")).

(** A reading of the clock, in nanoseconds. *)
Definition sample_now : Z := 1700000000123456789.

(** A byte slice that holds the canonical text of [sample_uuid]. *)
Definition sample_text_bytes : list byte := bytes_of_string sample_text.

(** A JSON decoder for the samples: it takes the text between the first
    and the last byte of the data. *)
Definition sample_json_Unmarshal (data : list byte) : string * option error :=
  match data with
  | [] => (EmptyString, Some (ForeignError "unexpected end of JSON input"))
  | _ :: r => (string_of_bytes (removelast r), None)
  end.

(** A JSON encoder for the samples: the text between two double quotes
    (byte 34), which is what [json.Marshal] gives for a text of digits and
    hyphens. *)
Definition sample_json_Marshal (s : string) : list byte * option error :=
  (34 :: bytes_of_string s ++ [34], None)%list.

(** The capital of a hexadecimal letter; every other character is left as
    it is. *)
Definition upper_hex (c : ascii) : ascii :=
  let n := byte_of_ascii c in
  if (97 <=? n) && (n <=? 102) then ascii_of_byte (n - 32) else c.

Fixpoint string_map (f : ascii -> ascii) (s : string) : string :=
  match s with
  | EmptyString => EmptyString
  | String c r => String (f c) (string_map f r)
  end.

(** The variant by the value of byte 8. *)
Definition variant_of_range (b : byte) : Variant :=
  if b <? 128 then VariantNCS
  else if b <? 192 then VariantRFC4122
  else if b <? 224 then VariantMicrosoft
  else VariantFuture.

(** The order of Go on strings (the operator [<], [strings.Compare]): byte
    by byte from the left, a proper prefix before the longer string. *)
Fixpoint string_compare (a b : string) : Z :=
  match a, b with
  | EmptyString, EmptyString => 0
  | EmptyString, String _ _ => -1
  | String _ _, EmptyString => 1
  | String x a', String y b' =>
      if byte_of_ascii x <? byte_of_ascii y then -1
      else if byte_of_ascii x >? byte_of_ascii y then 1
      else string_compare a' b'
  end.

(** The comparison of two byte sequences of one length from the left, with
    the result [k] when they are equal. *)
Fixpoint bytes_compare_then (l1 l2 : list byte) (k : Z) : Z :=
  match l1, l2 with
  | a :: r1, b :: r2 =>
      if a <? b then -1
      else if a >? b then 1
      else bytes_compare_then r1 r2 k
  | _, _ => k
  end.

(** [all_bytes] lists the 256 bytes, for properties of one byte that are
    settled by running through them. *)
Definition all_bytes : list byte := map Z.of_nat (seq 0 256).

(** * Examples *)

Example Parse_hyphens :
  Parse "550e8400-e29b-41d4-a716-446655440000" =
  ([85; 14; 132; 0; 226; 155; 65; 212; 167; 22; 68; 102; 85; 68; 0; 0], None).
Proof. reflexivity. Qed.

Example Parse_plain :
  Parse "550e8400e29b41d4a716446655440000" =
  Parse "550e8400-e29b-41d4-a716-446655440000".
Proof. reflexivity. Qed.

Example Parse_braces :
  Parse "{550e8400-e29b-41d4-a716-446655440000}" =
  Parse "550e8400-e29b-41d4-a716-446655440000".
Proof. reflexivity. Qed.

Example Parse_short :
  Parse "550e8400-e29b-41d4-a716" = (Nil, Some (InvalidLength 20)).
Proof. reflexivity. Qed.

Example Parse_bad_digit :
  Parse "550e8400-e29b-41d4-a716-44665544000g" =
  (Nil, Some (InvalidFormat (hex.InvalidByteError "g"))).
Proof. reflexivity. Qed.

Example String_example :
  UUID.String [85; 14; 132; 0; 226; 155; 65; 212; 167; 22; 68; 102; 85; 68; 0; 0]
  = "550e8400-e29b-41d4-a716-446655440000"%string.
Proof. reflexivity. Qed.

(** * Bytes and arrays *)

Lemma all_bytes_complete (b : byte) : is_byte b -> In b all_bytes.
Proof.
  intros Hb. unfold all_bytes.
  replace b with (Z.of_nat (Z.to_nat b)) by (unfold is_byte in Hb; lia).
  apply in_map, in_seq. unfold is_byte in Hb. lia.
Qed.

Lemma byte_cases (P : byte -> bool) :
  forallb P all_bytes = true -> forall b, is_byte b -> P b = true.
Proof.
  intros H b Hb. rewrite forallb_forall in H. apply H, all_bytes_complete, Hb.
Qed.

Lemma is_byteb_spec (b : byte) : is_byteb b = true <-> is_byte b.
Proof. unfold is_byteb, is_byte. rewrite andb_true_iff. lia. Qed.

Lemma wf_uuidb_spec (u : UUID) : wf_uuidb u = true <-> wf_uuid u.
Proof.
  unfold wf_uuidb, wf_uuid.
  rewrite andb_true_iff, Nat.eqb_eq, forallb_forall, Forall_forall.
  split; intros [H1 H2]; split; auto; intros x Hx; apply is_byteb_spec; auto.
Qed.

Lemma to_byte_is_byte (x : Z) : is_byte (to_byte x).
Proof. unfold is_byte, to_byte. apply Z.mod_pos_bound. lia. Qed.

Lemma to_byte_land (x : Z) : to_byte x = Z.land x 255.
Proof. unfold to_byte. symmetry. apply (Z.land_ones x 8). lia. Qed.

Lemma length_store (a : list byte) (i : nat) (v : byte) :
  List.length (store a i v) = List.length a.
Proof.
  revert i; induction a as [|x a IH]; intros [|i]; simpl; auto.
Qed.

Lemma index_store_eq (a : list byte) (i : nat) (v : byte) :
  (i < List.length a)%nat -> (store a i v).[i] = v.
Proof.
  unfold index. revert i; induction a as [|x a IH]; intros [|i] H; simpl in *;
    try lia; auto. apply IH; lia.
Qed.

Lemma index_store_ne (a : list byte) (i j : nat) (v : byte) :
  i <> j -> (store a i v).[j] = a.[j].
Proof.
  unfold index. revert i j; induction a as [|x a IH]; intros [|i] [|j] H;
    simpl; auto; try congruence.
Qed.

Lemma Forall_store (a : list byte) (i : nat) (v : byte) :
  Forall is_byte a -> is_byte v -> Forall is_byte (store a i v).
Proof.
  intros Ha Hv. revert i; induction Ha as [|x a Hx Ha IH]; intros [|i]; simpl;
    constructor; auto.
Qed.

Lemma index_is_byte (a : list byte) (i : nat) :
  Forall is_byte a -> is_byte a.[i].
Proof.
  intros Ha. unfold index. destruct (Nat.lt_ge_cases i (List.length a)) as [H|H].
  - rewrite Forall_forall in Ha. apply Ha, nth_In, H.
  - rewrite nth_overflow by exact H. unfold is_byte; lia.
Qed.

(** Two arrays of one length with the same bytes at every index are equal. *)
Lemma index_ext (a b : list byte) :
  List.length a = List.length b ->
  (forall i, (i < List.length a)%nat -> a.[i] = b.[i]) -> a = b.
Proof.
  intros Hl H. apply (nth_ext a b 0 0 Hl). exact H.
Qed.

Lemma copy_full (dst src : list byte) :
  List.length src = List.length dst -> copy dst src = src.
Proof.
  intros H. unfold copy. rewrite <- H, firstn_all.
  rewrite H, skipn_all. apply app_nil_r.
Qed.

Lemma wf_Nil : wf_uuid Nil.
Proof. apply wf_uuidb_spec. reflexivity. Qed.

(** * Bit patterns of the version and the variant *)

Lemma land_mask_testbit (a b m k : Z) :
  Z.land a m = Z.land b m -> Z.testbit m k = true ->
  Z.testbit a k = Z.testbit b k.
Proof.
  intros H Hm. apply (f_equal (fun x => Z.testbit x k)) in H.
  rewrite !Z.land_spec, Hm, !andb_true_r in H. exact H.
Qed.

Lemma testbit_ones_low (n k : Z) : 0 <= k < n -> Z.testbit (Z.ones n) k = true.
Proof. intros H. apply Z.ones_spec_low. exact H. Qed.

(** Forcing the high nibble of a byte to [v] keeps the low nibble. *)
Lemma force_nibble (b v : Z) :
  is_byte b -> v = 1 \/ v = 4 ->
  let b' := Z.lor (Z.land b 15) (16 * v) in
  is_byte b' /\ Z.shiftr b' 4 = v /\ Z.land b' 15 = Z.land b 15.
Proof.
  intros Hb Hv b'. subst b'.
  assert (H := byte_cases
    (fun b => forallb (fun v =>
       let b' := Z.lor (Z.land b 15) (16 * v) in
       is_byteb b' && (Z.shiftr b' 4 =? v) && (Z.land b' 15 =? Z.land b 15))
       [1; 4])).
  specialize (H ltac:(vm_compute; reflexivity) b Hb). cbv beta in H.
  rewrite forallb_forall in H.
  specialize (H v ltac:(simpl; intuition)). cbv zeta in H.
  apply andb_true_iff in H as [H H3]. apply andb_true_iff in H as [H1 H2].
  rewrite is_byteb_spec in H1. rewrite Z.eqb_eq in H2, H3. auto.
Qed.

(** Forcing the top two bits of a byte to [10] keeps the low six bits. *)
Lemma force_variant (b : Z) :
  is_byte b ->
  let b' := Z.lor (Z.land b 63) 128 in
  is_byte b' /\ Z.land b' 128 <> 0 /\ Z.land b' 192 = 128 /\
  Z.land b' 63 = Z.land b 63.
Proof.
  intros Hb b'. subst b'.
  assert (H := byte_cases
    (fun b =>
       let b' := Z.lor (Z.land b 63) 128 in
       is_byteb b' && negb (Z.land b' 128 =? 0) && (Z.land b' 192 =? 128)
       && (Z.land b' 63 =? Z.land b 63))).
  specialize (H ltac:(vm_compute; reflexivity) b Hb). cbv zeta in H.
  apply andb_true_iff in H as [H H4]. apply andb_true_iff in H as [H H3].
  apply andb_true_iff in H as [H1 H2].
  rewrite is_byteb_spec in H1. rewrite negb_true_iff, Z.eqb_neq in H2.
  rewrite Z.eqb_eq in H3, H4. auto.
Qed.

Lemma Variant_RFC4122 (u : UUID) :
  Z.land u.[8] 128 <> 0 -> Z.land u.[8] 192 = 128 ->
  UUID.Variant u = VariantRFC4122.
Proof.
  intros H1 H2. unfold UUID.Variant.
  apply Z.eqb_neq in H1. rewrite H1, H2. reflexivity.
Qed.

(** * The generation strategies *)

(** C3.  When the random source fills the sixteen bytes with [r], the random
    strategy returns without error a UUID whose version is [VersionRandom]
    and whose variant is [VariantRFC4122]; it differs from [r] only in the
    high nibble of byte 6 and in the top two bits of byte 8, every other one
    of the 128 bits is the bit of [r].  [New], [NewV4] and a generator made
    for [VersionRandom] return this same value. *)
Theorem generateV4_random_strategy (rand_Read : Reader) (now : Z) (r : list byte) :
  rand_Read Nil = (r, None) -> wf_uuid r ->
  exists u : UUID,
    generateV4 rand_Read = (u, None) /\
    wf_uuid u /\
    UUID.Version u = VersionRandom /\
    UUID.Variant u = VariantRFC4122 /\
    (forall i : nat, i <> 6%nat -> i <> 8%nat -> u.[i] = r.[i]) /\
    Z.land u.[6] 15 = Z.land r.[6] 15 /\
    Z.land u.[8] 63 = Z.land r.[8] 63 /\
    (forall (i : nat) (k : Z), 0 <= k < 8 ->
       ~ (i = 6%nat /\ 4 <= k) -> ~ (i = 8%nat /\ 6 <= k) ->
       Z.testbit u.[i] k = Z.testbit r.[i] k) /\
    New rand_Read = u /\
    NewV4 rand_Read = (u, None) /\
    Generate (NewGenerator VersionRandom) rand_Read now = (u, None).
Proof.
  intros Hread [Hlen Hbytes].
  assert (E : generateV4 rand_Read =
              (store (store r 6 (Z.lor (Z.land r.[6] 15) (16 * 4))) 8
                 (Z.lor (Z.land r.[8] 63) 128), None)).
  { unfold generateV4. rewrite Hread.
    rewrite (index_store_ne r 6 8) by discriminate. reflexivity. }
  eexists. split; [exact E|].
  set (u := store _ 8 _) in *.
  assert (E6 : u.[6] = Z.lor (Z.land r.[6] 15) (16 * 4)).
  { unfold u. rewrite index_store_ne by discriminate.
    apply index_store_eq. lia. }
  assert (E8 : u.[8] = Z.lor (Z.land r.[8] 63) 128).
  { unfold u. apply index_store_eq. rewrite length_store. lia. }
  assert (Eo : forall i : nat, i <> 6%nat -> i <> 8%nat -> u.[i] = r.[i]).
  { intros i H6 H8. unfold u. rewrite !index_store_ne by congruence.
    reflexivity. }
  destruct (force_nibble r.[6] 4 (index_is_byte r 6 Hbytes) (or_intror eq_refl))
    as (B6 & V6 & L6).
  destruct (force_variant r.[8] (index_is_byte r 8 Hbytes))
    as (B8 & N8 & V8 & L8).
  rewrite <- E6 in B6, V6, L6. rewrite <- E8 in B8, N8, V8, L8.
  repeat split.
  - unfold u. rewrite !length_store. exact Hlen.
  - unfold u. rewrite E6 in B6. rewrite E8 in B8.
    apply Forall_store; [apply Forall_store|]; assumption.
  - exact V6.
  - apply Variant_RFC4122; assumption.
  - exact Eo.
  - exact L6.
  - exact L8.
  - intros i k Hk H6 H8.
    destruct (Nat.eq_dec i 6) as [->|Hi6].
    + apply (land_mask_testbit _ _ 15 k L6).
      apply (testbit_ones_low 4). lia.
    + destruct (Nat.eq_dec i 8) as [->|Hi8].
      * apply (land_mask_testbit _ _ 63 k L8).
        apply (testbit_ones_low 6). lia.
      * rewrite Eo by assumption. reflexivity.
  - unfold New. rewrite E. reflexivity.
  - exact E.
  - exact E.
Qed.

Lemma array16 (a : list byte) :
  List.length a = 16%nat ->
  exists b0 b1 b2 b3 b4 b5 b6 b7 b8 b9 b10 b11 b12 b13 b14 b15,
    a = [b0; b1; b2; b3; b4; b5; b6; b7; b8; b9; b10; b11; b12; b13; b14; b15].
Proof.
  intros H.
  do 16 (destruct a as [|? a]; [discriminate H|]).
  destruct a; [|discriminate H].
  repeat eexists.
Qed.

Ltac list16 r H :=
  let b0 := fresh "b0" in let b1 := fresh "b1" in let b2 := fresh "b2" in
  let b3 := fresh "b3" in let b4 := fresh "b4" in let b5 := fresh "b5" in
  let b6 := fresh "b6" in let b7 := fresh "b7" in let b8 := fresh "b8" in
  let b9 := fresh "b9" in let b10 := fresh "b10" in let b11 := fresh "b11" in
  let b12 := fresh "b12" in let b13 := fresh "b13" in let b14 := fresh "b14" in
  let b15 := fresh "b15" in
  destruct (array16 r H)
    as (b0 & b1 & b2 & b3 & b4 & b5 & b6 & b7 & b8 & b9 & b10 & b11 & b12
        & b13 & b14 & b15 & ->);
  clear H.

Lemma le_value_le_bytes (n : nat) (x : Z) :
  le_value (le_bytes n x) = x mod 2 ^ (8 * Z.of_nat n).
Proof.
  revert x; induction n as [|n IH]; intros x.
  - simpl. symmetry. apply Z.mod_1_r.
  - cbn [le_bytes le_value]. rewrite IH.
    replace (8 * Z.of_nat (S n)) with (8 + 8 * Z.of_nat n) by lia.
    rewrite Z.pow_add_r by lia. change (2 ^ 8) with 256.
    rewrite Z.rem_mul_r by lia.
    rewrite Z.shiftr_div_pow2 by lia. reflexivity.
Qed.

Lemma to_byte_shiftr (x : Z) (i : nat) :
  to_byte (Z.shiftr x (8 * Z.of_nat i)) = (x / 2 ^ (8 * Z.of_nat i)) mod 256.
Proof. unfold to_byte. rewrite Z.shiftr_div_pow2 by lia. reflexivity. Qed.

Lemma low_nibble_of_shift (x : Z) :
  Z.land (to_byte (Z.shiftr x 48)) 15 = (x / 2 ^ 48) mod 16.
Proof.
  rewrite to_byte_land, <- Z.land_assoc. change (Z.land 255 15) with (Z.ones 4).
  rewrite Z.land_ones by lia. rewrite Z.shiftr_div_pow2 by lia. reflexivity.
Qed.

(** C6.  When the random source fills the sixteen bytes with [r] and the
    clock reads [now], the time-based strategy returns without error a UUID
    whose bytes 0 to 5 are the low 48 bits of [now], least-significant byte
    first, whose byte 6 has bits 48 to 51 of [now] in its low nibble and the
    time-based tag in its high nibble, whose byte 8 has its top two bits
    forced to [10] and its low six bits from [r], and whose bytes 7 and 9 to
    15 are those of [r]; so its version is [VersionTimeBased] and its
    variant [VariantRFC4122]. *)
Theorem generateV1_time_based_strategy (rand_Read : Reader) (now : Z) (r : list byte) :
  rand_Read Nil = (r, None) -> wf_uuid r ->
  exists u : UUID,
    generateV1 rand_Read now = (u, None) /\
    wf_uuid u /\
    (forall i : nat, (i < 6)%nat -> u.[i] = (now / 2 ^ (8 * Z.of_nat i)) mod 256) /\
    slice u 0 6 = le_bytes 6 now /\
    le_value (slice u 0 6) = now mod 2 ^ 48 /\
    Z.land u.[6] 15 = (now / 2 ^ 48) mod 16 /\
    (forall k : Z, 0 <= k < 4 -> Z.testbit u.[6] k = Z.testbit now (48 + k)) /\
    Z.shiftr u.[6] 4 = VersionTimeBased /\
    UUID.Version u = VersionTimeBased /\
    Z.land u.[8] 192 = 128 /\
    UUID.Variant u = VariantRFC4122 /\
    Z.land u.[8] 63 = Z.land r.[8] 63 /\
    (forall i : nat, (6 < i)%nat -> i <> 8%nat -> u.[i] = r.[i]) /\
    NewV1 rand_Read now = (u, None) /\
    Generate (NewGenerator VersionTimeBased) rand_Read now = (u, None).
Proof.
  intros Hread [Hlen Hbytes].
  pose proof (index_is_byte r 8 Hbytes) as Hr8.
  list16 r Hlen.
  assert (E : generateV1 rand_Read now =
    ([to_byte now; to_byte (Z.shiftr now 8); to_byte (Z.shiftr now 16);
      to_byte (Z.shiftr now 24); to_byte (Z.shiftr now 32);
      to_byte (Z.shiftr now 40);
      Z.lor (Z.land (to_byte (Z.shiftr now 48)) 15) (16 * 1);
      b7; Z.lor (Z.land b8 63) 128; b9; b10; b11; b12; b13; b14; b15], None)).
  { unfold generateV1. rewrite Hread. reflexivity. }
  eexists. split; [exact E|].
  set (t := to_byte (Z.shiftr now 48)) in *.
  assert (Ht : is_byte t) by apply to_byte_is_byte.
  destruct (force_nibble t 1 Ht (or_introl eq_refl)) as (B6 & V6 & L6).
  change (index _ 8) with b8 in Hr8.
  destruct (force_variant b8 Hr8) as (B8 & N8 & V8 & L8).
  assert (Hlow : Z.land t 15 = (now / 2 ^ 48) mod 16)
    by apply low_nibble_of_shift.
  split; [|split; [|split; [|split; [|split; [|split]]]]].
  - split; [reflexivity|].
    repeat match goal with H : Forall _ (_ :: _) |- _ => inversion_clear H end.
    repeat (apply Forall_cons; [solve [auto using to_byte_is_byte]|]).
    apply Forall_nil.
  - intros i Hi.
    destruct i as [|[|[|[|[|[|i]]]]]]; try lia; unfold index; cbn [nth].
    + rewrite <- (Z.shiftr_0_r now) at 1. apply (to_byte_shiftr now 0).
    + apply (to_byte_shiftr now 1).
    + apply (to_byte_shiftr now 2).
    + apply (to_byte_shiftr now 3).
    + apply (to_byte_shiftr now 4).
    + apply (to_byte_shiftr now 5).
  - unfold slice. cbn [Nat.sub skipn firstn le_bytes].
    rewrite !Z.shiftr_shiftr by lia. reflexivity.
  - unfold slice. cbn [Nat.sub skipn firstn].
    transitivity (le_value (le_bytes 6 now)); [|apply (le_value_le_bytes 6)].
    cbn [le_bytes]. rewrite !Z.shiftr_shiftr by lia. reflexivity.
  - unfold index; cbn [nth]. rewrite L6. exact Hlow.
  - intros k Hk. unfold index; cbn [nth].
    rewrite (land_mask_testbit _ _ 15 k L6) by (apply (testbit_ones_low 4); lia).
    unfold t. rewrite to_byte_land. change 255 with (Z.ones 8).
    rewrite Z.land_spec, Z.shiftr_spec by lia.
    rewrite (testbit_ones_low 8 k) by lia. rewrite andb_true_r.
    f_equal. lia.
  - repeat split; try exact E.
    + exact V6.
    + exact V6.
    + exact V8.
    + apply Variant_RFC4122; assumption.
    + exact L8.
    + intros i Hi Hi8.
      do 7 (destruct i as [|i]; [lia|]).
      destruct i as [|[|i]]; [reflexivity|congruence|reflexivity].
Qed.

(** * Strings and hexadecimal digits *)

Lemma string_length_append (a b : string) :
  String.length (a ++ b) = (String.length a + String.length b)%nat.
Proof. induction a as [|c a IH]; simpl; auto. Qed.

Lemma string_forallb_impl (p q : ascii -> bool) (s : string) :
  (forall c, p c = true -> q c = true) ->
  string_forallb p s = true -> string_forallb q s = true.
Proof.
  intros Hpq. induction s as [|c s IH]; simpl; auto.
  rewrite !andb_true_iff. intros [H1 H2]. auto.
Qed.

Lemma ReplaceAll_append (a b : string) (old : ascii) :
  strings.ReplaceAll (a ++ b) old EmptyString =
  (strings.ReplaceAll a old EmptyString ++ strings.ReplaceAll b old EmptyString)%string.
Proof.
  induction a as [|c a IH]; simpl; auto.
  destruct (Ascii.eqb c old); simpl; congruence.
Qed.

Lemma ReplaceAll_absent (s : string) (old : ascii) (new : string) :
  string_forallb (fun c => negb (Ascii.eqb c old)) s = true ->
  strings.ReplaceAll s old new = s.
Proof.
  induction s as [|c s IH]; simpl; auto.
  rewrite andb_true_iff, negb_true_iff. intros [-> H]. rewrite IH; auto.
Qed.

(** The three calls of [ReplaceAll] in [Parse] drop the separators. *)
Lemma ReplaceAll_strip (s : string) :
  strings.ReplaceAll
    (strings.ReplaceAll (strings.ReplaceAll s "-" EmptyString) "{" EmptyString)
    "}" EmptyString = strip s.
Proof.
  induction s as [|c s IH]; [reflexivity|].
  cbn [strings.ReplaceAll strip]. unfold is_separator.
  destruct (Ascii.eqb c "-") eqn:E1; cbn [orb append]; [exact IH|].
  cbn [strings.ReplaceAll].
  destruct (Ascii.eqb c "{") eqn:E2; cbn [orb append]; [exact IH|].
  cbn [strings.ReplaceAll].
  destruct (Ascii.eqb c "}") eqn:E3; cbn [orb append]; [exact IH|].
  rewrite IH. reflexivity.
Qed.

Ltac each_ascii c :=
  destruct c as [[|] [|] [|] [|] [|] [|] [|] [|]].

Lemma fromHexChar_hex_value (c : ascii) : hex.fromHexChar c = hex_value c.
Proof. each_ascii c; vm_compute; reflexivity. Qed.

Lemma lower_hex_is_hex (c : ascii) : is_lower_hex c = true -> is_hex_digit c = true.
Proof.
  unfold is_lower_hex, is_hex_digit, hex_value.
  destruct (position c "0123456789abcdef"); [reflexivity|discriminate].
Qed.

Lemma hex_not_separator (c : ascii) :
  is_hex_digit c = true -> is_separator c = false.
Proof. each_ascii c; vm_compute; intros H; congruence. Qed.

Lemma digit_lower_hex (n : Z) : is_lower_hex (hex.digit n) = true.
Proof.
  unfold hex.digit. generalize (Z.to_nat n) as k. intros k.
  do 16 (destruct k as [|k]; [reflexivity|]). reflexivity.
Qed.

Lemma EncodeToString_lower_hex (l : list byte) :
  string_forallb is_lower_hex (hex.EncodeToString l) = true.
Proof.
  induction l as [|b l IH]; [reflexivity|].
  cbn [hex.EncodeToString string_forallb].
  rewrite !digit_lower_hex, IH. reflexivity.
Qed.

Lemma EncodeToString_app (a b : list byte) :
  hex.EncodeToString (a ++ b) =
  (hex.EncodeToString a ++ hex.EncodeToString b)%string.
Proof. induction a as [|x a IH]; simpl; congruence. Qed.

Lemma EncodeToString_length (l : list byte) :
  String.length (hex.EncodeToString l) = (2 * List.length l)%nat.
Proof. induction l as [|b l IH]; simpl; [reflexivity|]. rewrite IH. lia. Qed.

(** The two digits printed for a byte spell it. *)
Lemma digits_of_byte (b : byte) :
  is_byte b ->
  hex.fromHexChar (hex.digit (Z.shiftr b 4)) = Some (Z.shiftr b 4) /\
  hex.fromHexChar (hex.digit (Z.land b 15)) = Some (Z.land b 15) /\
  Z.lor (Z.shiftl (Z.shiftr b 4) 4) (Z.land b 15) = b.
Proof.
  intros Hb.
  assert (H := byte_cases
    (fun b =>
       match hex.fromHexChar (hex.digit (Z.shiftr b 4)),
             hex.fromHexChar (hex.digit (Z.land b 15)) with
       | Some h, Some l =>
           (h =? Z.shiftr b 4) && (l =? Z.land b 15)
           && (Z.lor (Z.shiftl h 4) l =? b)
       | _, _ => false
       end)).
  specialize (H ltac:(vm_compute; reflexivity) b Hb). cbv beta in H.
  destruct (hex.fromHexChar (hex.digit (Z.shiftr b 4))) as [h|]; [|discriminate].
  destruct (hex.fromHexChar (hex.digit (Z.land b 15))) as [l|]; [|discriminate].
  rewrite !andb_true_iff, !Z.eqb_eq in H. destruct H as [[-> ->] H].
  auto.
Qed.

Lemma DecodeString_EncodeToString (l : list byte) :
  Forall is_byte l -> hex.DecodeString (hex.EncodeToString l) = (l, None).
Proof.
  induction 1 as [|b l Hb Hl IH]; [reflexivity|].
  cbn [hex.EncodeToString hex.DecodeString].
  destruct (digits_of_byte b Hb) as (-> & -> & E).
  rewrite IH, E. reflexivity.
Qed.

Lemma EncodeToString_no_separator (l : list byte) (old : ascii) :
  is_separator old = true ->
  strings.ReplaceAll (hex.EncodeToString l) old EmptyString = hex.EncodeToString l.
Proof.
  intros Hold. apply ReplaceAll_absent.
  apply (string_forallb_impl is_lower_hex); [|apply EncodeToString_lower_hex].
  intros c Hc. apply lower_hex_is_hex, hex_not_separator in Hc.
  destruct (Ascii.eqb_spec c old) as [->|]; [congruence|reflexivity].
Qed.

Lemma String_without_hyphens (u : UUID) :
  List.length u = 16%nat ->
  strings.ReplaceAll (UUID.String u) "-" EmptyString = hex.EncodeToString u.
Proof.
  intros H. list16 u H. unfold UUID.String.
  rewrite !ReplaceAll_append.
  rewrite !EncodeToString_no_separator by reflexivity.
  cbn [strings.ReplaceAll Ascii.eqb Bool.eqb append].
  rewrite <- !EncodeToString_app. reflexivity.
Qed.

Lemma hex_value_range (c : ascii) (n : Z) :
  hex_value c = Some n -> 0 <= n < 16.
Proof. each_ascii c; vm_compute; intros [= <-]; split; congruence. Qed.

Lemma lor_nibbles (a b : Z) :
  0 <= a < 16 -> 0 <= b < 16 ->
  Z.lor (Z.shiftl a 4) b = 16 * a + b /\ is_byte (16 * a + b).
Proof.
  intros Ha Hb.
  assert (Hx : is_byte (16 * a + b)) by (unfold is_byte; lia).
  split; [|exact Hx].
  destruct (digits_of_byte _ Hx) as (_ & _ & E).
  assert (Ea : Z.shiftr (16 * a + b) 4 = a).
  { rewrite Z.shiftr_div_pow2 by lia. change (2 ^ 4) with 16.
    symmetry. apply (Z.div_unique _ 16 a b); lia. }
  assert (Eb : Z.land (16 * a + b) 15 = b).
  { change 15 with (Z.ones 4). rewrite Z.land_ones by lia.
    change (2 ^ 4) with 16. symmetry. apply (Z.mod_unique _ 16 a b); lia. }
  rewrite Ea, Eb in E. exact E.
Qed.

(** [DecodeString] on a string of even length: the bytes its digits spell,
    or the first character that is no digit. *)
Lemma DecodeString_even (n : nat) (t : string) :
  String.length t = (2 * n)%nat ->
  match first_non_hex t with
  | None => hex.DecodeString t = (bytes_of_hex t, None)
  | Some c => exists d, hex.DecodeString t = (d, Some (hex.InvalidByteError c))
  end.
Proof.
  revert t; induction n as [|n IH]; intros t Hlen.
  - destruct t; [reflexivity|discriminate].
  - destruct t as [|p [|q r]]; try (simpl in Hlen; lia).
    assert (Hr : String.length r = (2 * n)%nat) by (simpl in Hlen; lia).
    specialize (IH r Hr).
    cbn [first_non_hex hex.DecodeString bytes_of_hex].
    unfold is_hex_digit, digit_value. rewrite !fromHexChar_hex_value.
    destruct (hex_value p) as [a|] eqn:Ep; [|eauto].
    destruct (hex_value q) as [b|] eqn:Eq; [|eauto].
    destruct (lor_nibbles a b (hex_value_range p a Ep) (hex_value_range q b Eq))
      as [-> _].
    destruct (first_non_hex r) as [c|].
    + destruct IH as [d ->]. eauto.
    + rewrite IH. reflexivity.
Qed.

Lemma first_non_hex_None (t : string) :
  first_non_hex t = None <-> string_forallb is_hex_digit t = true.
Proof.
  induction t as [|c t IH]; simpl; [tauto|].
  destruct (is_hex_digit c); simpl; [exact IH|]. split; discriminate.
Qed.

Lemma first_non_hex_Some (t : string) (c : ascii) :
  first_non_hex t = Some c ->
  is_hex_digit c = false /\ exists i, (i < String.length t)%nat /\ char_at t i = c.
Proof.
  induction t as [|x t IH]; simpl; [discriminate|].
  destruct (is_hex_digit x) eqn:Ex.
  - intros H. destruct (IH H) as (Hc & i & Hi & E).
    split; [exact Hc|]. exists (S i). split; [lia|exact E].
  - intros [= <-]. split; [exact Ex|]. exists 0%nat. split; [lia|reflexivity].
Qed.

Lemma bytes_of_hex_wf (n : nat) (t : string) :
  String.length t = (2 * n)%nat ->
  List.length (bytes_of_hex t) = n /\ Forall is_byte (bytes_of_hex t).
Proof.
  revert t; induction n as [|n IH]; intros t Hlen.
  - destruct t; [split; [reflexivity|constructor]|discriminate].
  - destruct t as [|p [|q r]]; try (simpl in Hlen; lia).
    destruct (IH r) as [Hl Hb]; [simpl in Hlen; lia|].
    cbn [bytes_of_hex List.length]. split; [congruence|].
    constructor; [|exact Hb].
    unfold digit_value.
    assert (Hp : 0 <= match hex_value p with Some k => k | None => 0 end < 16).
    { destruct (hex_value p) eqn:E; [eapply hex_value_range; eauto|lia]. }
    assert (Hq : 0 <= match hex_value q with Some k => k | None => 0 end < 16).
    { destruct (hex_value q) eqn:E; [eapply hex_value_range; eauto|lia]. }
    unfold is_byte. lia.
Qed.

Lemma bytes_of_hex_index (t : string) (i : nat) :
  (2 * i + 1 < String.length t)%nat ->
  (bytes_of_hex t).[i] =
  16 * digit_value (char_at t (2 * i)) + digit_value (char_at t (2 * i + 1)).
Proof.
  revert t; induction i as [|i IH]; intros t Hlen.
  - destruct t as [|p [|q r]]; try (simpl in Hlen; lia). reflexivity.
  - destruct t as [|p [|q r]]; try (simpl in Hlen; lia).
    cbn [bytes_of_hex]. unfold index. cbn [nth].
    fold (index (bytes_of_hex r) i). rewrite IH by (simpl in Hlen; lia).
    replace (2 * S i)%nat with (S (S (2 * i))) by lia.
    replace (S (S (2 * i)) + 1)%nat with (S (S (2 * i + 1))) by lia.
    reflexivity.
Qed.

Lemma bytes_of_hex_EncodeToString (l : list byte) :
  Forall is_byte l -> bytes_of_hex (hex.EncodeToString l) = l.
Proof.
  induction 1 as [|b l Hb Hl IH]; [reflexivity|].
  cbn [hex.EncodeToString bytes_of_hex]. rewrite IH. f_equal.
  destruct (digits_of_byte b Hb) as (Eh & El & E).
  rewrite fromHexChar_hex_value in Eh, El.
  unfold digit_value. rewrite Eh, El.
  destruct (lor_nibbles _ _ (hex_value_range _ _ Eh) (hex_value_range _ _ El))
    as [E' _].
  congruence.
Qed.

(** * Parsing and formatting *)

(** C1.  Parsing the text that [String] prints for a UUID [v] succeeds and
    returns [v]. *)
Theorem Parse_String_roundtrip (v : UUID) :
  wf_uuid v -> Parse (UUID.String v) = (v, None).
Proof.
  intros [Hlen Hbytes]. unfold Parse.
  rewrite (String_without_hyphens v Hlen).
  rewrite !EncodeToString_no_separator by reflexivity.
  rewrite EncodeToString_length, Hlen. cbn [Nat.mul Nat.add Nat.eqb negb].
  rewrite (DecodeString_EncodeToString v Hbytes).
  rewrite copy_full; [reflexivity|]. rewrite Hlen. reflexivity.
Qed.

Lemma Parse_unfold (s : string) :
  Parse s =
  if negb (Nat.eqb (String.length (strip s)) 32) then
    (Nil, Some (InvalidLength (String.length (strip s))))
  else
    match hex.DecodeString (strip s) with
    | (_, Some e) => (Nil, Some (InvalidFormat e))
    | (decoded, None) => (copy Nil decoded, None)
    end.
Proof.
  unfold Parse. rewrite ReplaceAll_strip.
  destruct (negb _); [reflexivity|].
  destruct (hex.DecodeString (strip s)) as [d [e|]]; reflexivity.
Qed.

(** The three outcomes of [Parse], by the string [strip s] that is left
    when the separators are dropped. *)
Lemma Parse_cases (s : string) :
  (String.length (strip s) <> 32%nat /\
   Parse s = (Nil, Some (InvalidLength (String.length (strip s))))) \/
  (String.length (strip s) = 32%nat /\
   exists c, first_non_hex (strip s) = Some c /\
             Parse s = (Nil, Some (InvalidFormat (hex.InvalidByteError c)))) \/
  (String.length (strip s) = 32%nat /\
   first_non_hex (strip s) = None /\
   Parse s = (bytes_of_hex (strip s), None) /\
   wf_uuid (bytes_of_hex (strip s))).
Proof.
  rewrite Parse_unfold.
  destruct (Nat.eqb_spec (String.length (strip s)) 32) as [Hlen|Hlen];
    cbn [negb]; [|left; auto].
  right.
  assert (H := DecodeString_even 16 (strip s) Hlen).
  destruct (first_non_hex (strip s)) as [c|] eqn:Ec.
  - left. split; [exact Hlen|]. exists c. split; [reflexivity|].
    destruct H as [d ->]. reflexivity.
  - right. rewrite H.
    destruct (bytes_of_hex_wf 16 (strip s) Hlen) as [Hl Hb].
    rewrite copy_full by (rewrite Hl; reflexivity).
    repeat split; auto.
Qed.

(** C2.  [Parse] drops every ['-'], ['{'] and ['}'] of its input; let [t] be
    what is left.  When the length of [t] is not 32, [Parse] fails with the
    length error.  When it is 32 and some character of [t] is not a
    hexadecimal digit, [Parse] fails with the invalid-digit error, which
    names the first such character.  When it is 32 and every character is a
    hexadecimal digit, [Parse] succeeds and byte [i] of its result is spelt
    by the characters [2 * i] and [2 * i + 1] of [t].  So [Parse] succeeds
    exactly when [t] is 32 hexadecimal digits, every error it returns is a
    [FormatError], and it returns one whenever some character of [t] is not
    a hexadecimal digit. *)
Theorem Parse_spec (s : string) :
  (String.length (strip s) <> 32%nat ->
     Parse s = (Nil, Some (InvalidLength (String.length (strip s))))) /\
  (String.length (strip s) = 32%nat ->
   string_forallb is_hex_digit (strip s) = false ->
     exists c : ascii,
       first_non_hex (strip s) = Some c /\ is_hex_digit c = false /\
       Parse s = (Nil, Some (InvalidFormat (hex.InvalidByteError c)))) /\
  (String.length (strip s) = 32%nat ->
   string_forallb is_hex_digit (strip s) = true ->
     exists u : UUID,
       Parse s = (u, None) /\ wf_uuid u /\ u = bytes_of_hex (strip s) /\
       forall i : nat, (i < 16)%nat ->
         u.[i] = 16 * digit_value (char_at (strip s) (2 * i))
                 + digit_value (char_at (strip s) (2 * i + 1))) /\
  (snd (Parse s) = None <->
     String.length (strip s) = 32%nat /\
     string_forallb is_hex_digit (strip s) = true) /\
  (forall e : error, snd (Parse s) = Some e -> FormatError e /\ fst (Parse s) = Nil) /\
  (string_forallb is_hex_digit (strip s) = false ->
     exists e : error, snd (Parse s) = Some e /\ FormatError e).
Proof.
  pose proof (first_non_hex_None (strip s)) as Hnone.
  destruct (Parse_cases s)
    as [[Hlen E]|[(Hlen & c & Hc & E)|(Hlen & Hc & E & Hwf)]].
  - split; [|split; [|split; [|split; [|split]]]].
    + intros _. exact E.
    + intros H. contradiction.
    + intros H. contradiction.
    + rewrite E. cbn [snd]. split; [discriminate|]. intros [H _]. contradiction.
    + rewrite E. cbn [snd fst]. intros e [= <-]. split; [exact I|reflexivity].
    + intros _. rewrite E. cbn [snd]. eexists. split; [reflexivity|exact I].
  - assert (Hbad : string_forallb is_hex_digit (strip s) <> true).
    { intros H. apply Hnone in H. congruence. }
    split; [|split; [|split; [|split; [|split]]]].
    + intros H. contradiction.
    + intros _ _. exists c. split; [exact Hc|]. split; [|exact E].
      apply (first_non_hex_Some _ _ Hc).
    + intros _ H. contradiction.
    + rewrite E. cbn [snd]. split; [discriminate|]. intros [_ H]. contradiction.
    + rewrite E. cbn [snd fst]. intros e [= <-]. split; [exact I|reflexivity].
    + intros _. rewrite E. cbn [snd]. eexists. split; [reflexivity|exact I].
  - assert (Hall : string_forallb is_hex_digit (strip s) = true)
      by (apply Hnone; exact Hc).
    split; [|split; [|split; [|split; [|split]]]].
    + intros H. contradiction.
    + intros _ H. congruence.
    + intros _ _. exists (bytes_of_hex (strip s)).
      split; [exact E|]. split; [exact Hwf|]. split; [reflexivity|].
      intros i Hi. apply bytes_of_hex_index. lia.
    + rewrite E. cbn [snd]. split; auto.
    + rewrite E. cbn [snd]. discriminate.
    + intros H. congruence.
Qed.

(** C7.  The text [String] prints for a UUID has 36 characters: five groups
    of 8, 4, 4, 4 and 12 lowercase hexadecimal digits with a hyphen between
    two groups, so the hyphens are at the places 8, 13, 18 and 23 and every
    other place holds a lowercase digit; the 32 digits spell the sixteen
    bytes in order; and the text depends on nothing but the sixteen
    bytes. *)
Theorem String_canonical (u : UUID) :
  wf_uuid u ->
  String.length (UUID.String u) = 36%nat /\
  (exists g1 g2 g3 g4 g5 : string,
     UUID.String u = (g1 ++ "-" ++ g2 ++ "-" ++ g3 ++ "-" ++ g4 ++ "-" ++ g5)%string /\
     String.length g1 = 8%nat /\ String.length g2 = 4%nat /\
     String.length g3 = 4%nat /\ String.length g4 = 4%nat /\
     String.length g5 = 12%nat /\
     string_forallb is_lower_hex (g1 ++ g2 ++ g3 ++ g4 ++ g5) = true /\
     bytes_of_hex (g1 ++ g2 ++ g3 ++ g4 ++ g5) = u) /\
  (forall i : nat, (i < 36)%nat ->
     if hyphen_position i then char_at (UUID.String u) i = "-"%char
     else is_lower_hex (char_at (UUID.String u) i) = true) /\
  (forall v : UUID, wf_uuid v ->
     (forall i : nat, (i < 16)%nat -> u.[i] = v.[i]) ->
     UUID.String u = UUID.String v).
Proof.
  intros [Hlen Hbytes].
  split; [|split; [|split]].
  - unfold UUID.String. rewrite !string_length_append, !EncodeToString_length.
    list16 u Hlen. reflexivity.
  - exists (hex.EncodeToString (slice u 0 4)), (hex.EncodeToString (slice u 4 6)),
      (hex.EncodeToString (slice u 6 8)), (hex.EncodeToString (slice u 8 10)),
      (hex.EncodeToString (slice u 10 16)).
    split; [reflexivity|].
    rewrite !EncodeToString_length, <- !EncodeToString_app.
    assert (E : (slice u 0 4 ++ slice u 4 6 ++ slice u 6 8 ++ slice u 8 10
                 ++ slice u 10 16)%list = u).
    { clear Hbytes. list16 u Hlen. reflexivity. }
    rewrite E, EncodeToString_lower_hex, bytes_of_hex_EncodeToString by exact Hbytes.
    clear E Hbytes. list16 u Hlen. repeat split; reflexivity.
  - intros i Hi. clear Hbytes. list16 u Hlen.
    unfold UUID.String, slice.
    cbn [firstn skipn Nat.sub hex.EncodeToString append].
    do 36 (destruct i as [|i];
           [cbv [hyphen_position Nat.eqb orb char_at String.get];
            first [reflexivity|apply digit_lower_hex]|]).
    lia.
  - intros v [Hlv _] H. f_equal. apply index_ext; [congruence|].
    rewrite Hlen. exact H.
Qed.

(** * The order *)

Ltac compare_step u v i :=
  cbn [UUID.Compare_loop]; rewrite ?Z.gtb_ltb;
  destruct (Z.ltb_spec u.[i] v.[i]); destruct (Z.ltb_spec v.[i] u.[i]);
  try lia.

Lemma Compare_loop_values (n i : nat) (u v : UUID) :
  UUID.Compare_loop n i u v = -1 \/ UUID.Compare_loop n i u v = 0 \/
  UUID.Compare_loop n i u v = 1.
Proof.
  revert i; induction n as [|n IH]; intros i; [cbn; auto|].
  compare_step u v i; auto.
Qed.

Lemma Compare_loop_opp (n i : nat) (u v : UUID) :
  UUID.Compare_loop n i u v = - UUID.Compare_loop n i v u.
Proof.
  revert i; induction n as [|n IH]; intros i; [reflexivity|].
  compare_step u v i. apply IH.
Qed.

Lemma Compare_loop_less (n i : nat) (u v : UUID) :
  UUID.Compare_loop n i u v = -1 <->
  exists j : nat, (i <= j < i + n)%nat /\
    (forall k : nat, (i <= k < j)%nat -> u.[k] = v.[k]) /\ u.[j] < v.[j].
Proof.
  revert i; induction n as [|n IH]; intros i.
  - cbn. split; [discriminate|]. intros (j & Hj & _). lia.
  - compare_step u v i.
    + split; [intros _|reflexivity].
      exists i. split; [lia|]. split; [intros k Hk; lia|assumption].
    + split; [discriminate|]. intros (j & Hj & Heq & Hlt).
      destruct (Nat.eq_dec j i) as [->|Hne]; [lia|].
      specialize (Heq i ltac:(lia)). lia.
    + rewrite IH. split; intros (j & Hj & Heq & Hlt).
      * exists j. split; [lia|]. split; [|assumption]. intros k Hk.
        destruct (Nat.eq_dec k i) as [->|Hne]; [lia|]. apply Heq. lia.
      * destruct (Nat.eq_dec j i) as [->|Hne]; [lia|].
        exists j. split; [lia|]. split; [|assumption].
        intros k Hk. apply Heq. lia.
Qed.

Lemma Compare_loop_equal (n i : nat) (u v : UUID) :
  UUID.Compare_loop n i u v = 0 <->
  forall j : nat, (i <= j < i + n)%nat -> u.[j] = v.[j].
Proof.
  revert i; induction n as [|n IH]; intros i.
  - cbn. split; [intros _ j Hj; lia|reflexivity].
  - compare_step u v i.
    + split; [discriminate|]. intros Hall. specialize (Hall i ltac:(lia)). lia.
    + split; [discriminate|]. intros Hall. specialize (Hall i ltac:(lia)). lia.
    + rewrite IH. split; intros Hall j Hj.
      * destruct (Nat.eq_dec j i) as [->|Hne]; [lia|]. apply Hall. lia.
      * apply Hall. lia.
Qed.

Lemma Compare_loop_trans (n i : nat) (u v w : UUID) :
  UUID.Compare_loop n i u v <= 0 -> UUID.Compare_loop n i v w <= 0 ->
  UUID.Compare_loop n i u w <= 0.
Proof.
  revert i; induction n as [|n IH]; intros i; [cbn; lia|].
  cbn [UUID.Compare_loop]. rewrite ?Z.gtb_ltb.
  destruct (Z.ltb_spec u.[i] v.[i]); destruct (Z.ltb_spec v.[i] u.[i]);
  destruct (Z.ltb_spec v.[i] w.[i]); destruct (Z.ltb_spec w.[i] v.[i]);
  destruct (Z.ltb_spec u.[i] w.[i]); destruct (Z.ltb_spec w.[i] u.[i]);
  try lia. apply IH.
Qed.

(** C9.  [Compare] is the lexicographic comparison of the sixteen bytes from
    left to right: its result is -1, 0 or 1, it is -1 (1) exactly when at
    the first index where the two UUIDs differ the byte of the first is the
    smaller (greater) one, and 0 exactly when the two are equal.  It is a
    total order: [Compare u v] is the opposite of [Compare v u], and from
    [Compare u v <= 0] and [Compare v w <= 0] follows [Compare u w <= 0]. *)
Theorem Compare_total_order (u v w : UUID) :
  wf_uuid u -> wf_uuid v -> wf_uuid w ->
  (UUID.Compare u v = -1 \/ UUID.Compare u v = 0 \/ UUID.Compare u v = 1) /\
  (UUID.Compare u v = -1 <->
     exists i : nat, (i < 16)%nat /\
       (forall j : nat, (j < i)%nat -> u.[j] = v.[j]) /\ u.[i] < v.[i]) /\
  (UUID.Compare u v = 1 <->
     exists i : nat, (i < 16)%nat /\
       (forall j : nat, (j < i)%nat -> u.[j] = v.[j]) /\ u.[i] > v.[i]) /\
  (UUID.Compare u v = 0 <-> u = v) /\
  UUID.Compare u v = - UUID.Compare v u /\
  (UUID.Compare u v <= 0 -> UUID.Compare v w <= 0 -> UUID.Compare u w <= 0).
Proof.
  intros [Hu _] [Hv _] _. unfold UUID.Compare.
  split; [apply Compare_loop_values|].
  split; [|split; [|split; [|split]]].
  - rewrite Compare_loop_less. split; intros (i & Hi & Heq & Hlt);
      exists i; (split; [lia|]); (split; [|assumption]);
      intros j Hj; apply Heq; lia.
  - rewrite Compare_loop_opp.
    assert (E : - UUID.Compare_loop 16 0 v u = 1 <->
                UUID.Compare_loop 16 0 v u = -1) by lia.
    rewrite E, Compare_loop_less. split; intros (i & Hi & Heq & Hlt);
      exists i; (split; [lia|]); (split; [|lia]);
      intros j Hj; symmetry; apply Heq; lia.
  - rewrite Compare_loop_equal. split.
    + intros H. apply index_ext; [congruence|].
      intros i Hi. apply H. lia.
    + intros -> j _. reflexivity.
  - apply Compare_loop_opp.
  - apply Compare_loop_trans.
Qed.

(** * The adapters *)

Lemma assign_parsed_error (u : UUID) (r : UUID * option error) (e : error) :
  snd (assign_parsed u r) = Some e -> fst (assign_parsed u r) = u.
Proof. destruct r as [parsed [e'|]]; cbn; [reflexivity|discriminate]. Qed.

Lemma UnmarshalText_assign (u : UUID) (text : list byte) :
  UUID.UnmarshalText u text = assign_parsed u (Parse (string_of_bytes text)).
Proof.
  unfold UUID.UnmarshalText, assign_parsed.
  destruct (Parse _) as [parsed [e|]]; reflexivity.
Qed.

Lemma Scan_string (u : UUID) (s : string) :
  UUID.Scan u (UUID.VString s) = assign_parsed u (Parse s).
Proof.
  unfold UUID.Scan, assign_parsed.
  destruct (Parse _) as [parsed [e|]]; reflexivity.
Qed.

Lemma Scan_bytes (u : UUID) (b : list byte) :
  UUID.Scan u (UUID.VBytes b) =
  if Nat.eqb (List.length b) 16 then (copy u b, None)
  else assign_parsed u (Parse (string_of_bytes b)).
Proof.
  unfold UUID.Scan, assign_parsed. destruct (Nat.eqb _ _); [reflexivity|].
  destruct (Parse _) as [parsed [e|]]; reflexivity.
Qed.

(** C4, as the code has it.  For a receiver [u]: [Scan] of [nil] sets it to
    the nil UUID without error; [Scan] of a string parses it with [Parse];
    [Scan] of a sequence of exactly sixteen bytes copies the bytes; [Scan]
    of a byte sequence of another length parses it as text with [Parse];
    and [Scan] of a value of any other type fails with the
    [UnsupportedInputError] that names the type, the receiver unchanged. *)
Theorem Scan_spec (u : UUID) :
  wf_uuid u ->
  UUID.Scan u UUID.VNil = (Nil, None) /\
  (forall s : string, UUID.Scan u (UUID.VString s) = assign_parsed u (Parse s)) /\
  (forall b : list byte, List.length b = 16%nat ->
     UUID.Scan u (UUID.VBytes b) = (b, None)) /\
  (forall b : list byte, List.length b <> 16%nat ->
     UUID.Scan u (UUID.VBytes b) = assign_parsed u (Parse (string_of_bytes b))) /\
  (forall v : UUID.value, other_type v = true ->
     UUID.Scan u v = (u, Some (CannotScan (UUID.type_name v))) /\
     UnsupportedInputError (CannotScan (UUID.type_name v))).
Proof.
  intros [Hlen _].
  split; [reflexivity|]. split; [apply Scan_string|].
  split; [|split].
  - intros b Hb. rewrite Scan_bytes, Hb. cbn [Nat.eqb].
    rewrite copy_full by congruence. reflexivity.
  - intros b Hb. rewrite Scan_bytes.
    apply Nat.eqb_neq in Hb. rewrite Hb. reflexivity.
  - intros v Hv. destruct v; try discriminate Hv; split; try reflexivity; exact I.
Qed.

(** C10.  When [UnmarshalJSON], [UnmarshalText] or [Scan] returns an error,
    the receiver holds the value it held before the call. *)
Theorem adapters_keep_receiver_on_error
    (json_Unmarshal : list byte -> string * option error) (u : UUID) :
  (forall (data : list byte) (e : error),
     snd (UUID.UnmarshalJSON json_Unmarshal u data) = Some e ->
     fst (UUID.UnmarshalJSON json_Unmarshal u data) = u) /\
  (forall (text : list byte) (e : error),
     snd (UUID.UnmarshalText u text) = Some e ->
     fst (UUID.UnmarshalText u text) = u) /\
  (forall (v : UUID.value) (e : error),
     snd (UUID.Scan u v) = Some e -> fst (UUID.Scan u v) = u).
Proof.
  split; [|split].
  - intros data e. unfold UUID.UnmarshalJSON.
    destruct (json_Unmarshal data) as [s [e'|]]; [reflexivity|].
    destruct (Parse s) as [parsed [e'|]]; cbn; [reflexivity|discriminate].
  - intros text e. rewrite UnmarshalText_assign. apply assign_parsed_error.
  - intros v e. destruct v; try (cbn; intros; reflexivity).
    + cbn. discriminate.
    + rewrite Scan_string. apply assign_parsed_error.
    + rewrite Scan_bytes. destruct (Nat.eqb _ _).
      * cbn. discriminate.
      * apply assign_parsed_error.
Qed.

(** * The generators *)

Lemma generation_propagates (rand_Read : Reader) (now : Z) (b : list byte) (e : error) :
  rand_Read Nil = (b, Some e) ->
  generateV4 rand_Read = (b, Some e) /\
  generateV1 rand_Read now = (b, Some e) /\
  NewV4 rand_Read = (b, Some e) /\
  NewV1 rand_Read now = (b, Some e) /\
  (forall g : UUIDGenerator, Generate g rand_Read now = (b, Some e)) /\
  MustNew rand_Read = None.
Proof.
  intros H.
  assert (E4 : generateV4 rand_Read = (b, Some e))
    by (unfold generateV4; rewrite H; reflexivity).
  assert (E1 : generateV1 rand_Read now = (b, Some e))
    by (unfold generateV1; rewrite H; reflexivity).
  repeat split; auto.
  - intros g. cbn [Generate UUIDGenerator_Generator]. unfold UUIDGenerator.Generate.
    destruct (_ =? _); [exact E4|]. destruct (_ =? _); [exact E1|exact E4].
  - unfold MustNew, NewV4. rewrite E4. reflexivity.
Qed.

(** C5, at a random source that fails.  [NewV4] returns the error of the
    source, but [New] drops it: it returns the nil UUID, whose version is
    not [VersionRandom], and nothing tells its caller that the source
    failed. *)
Theorem New_drops_source_error :
  NewV4 failing_Read = (Nil, Some (ForeignError "entropy source unavailable")) /\
  New failing_Read = Nil /\
  UUID.IsNil (New failing_Read) = true /\
  UUID.Version (New failing_Read) = VersionUnknown /\
  UUID.Version (New failing_Read) <> VersionRandom.
Proof. repeat split; try reflexivity. cbv. discriminate. Qed.

(** C8.  A generator made by [NewGenerator] reports the version it was made
    for; its [Generate] is the random strategy for [VersionRandom], the
    time-based strategy for [VersionTimeBased] and the random strategy for
    every other version; and whatever the version, [Generate] returns no
    error when the random source fills the buffer. *)
Theorem NewGenerator_strategy (tag : Version) (rand_Read : Reader) (now : Z) :
  GeneratorVersion (NewGenerator tag) = tag /\
  (tag = VersionRandom ->
     Generate (NewGenerator tag) rand_Read now = generateV4 rand_Read) /\
  (tag = VersionTimeBased ->
     Generate (NewGenerator tag) rand_Read now = generateV1 rand_Read now) /\
  (tag <> VersionRandom -> tag <> VersionTimeBased ->
     Generate (NewGenerator tag) rand_Read now = generateV4 rand_Read) /\
  (forall r : list byte, rand_Read Nil = (r, None) ->
     snd (Generate (NewGenerator tag) rand_Read now) = None).
Proof.
  cbn [Generate GeneratorVersion UUIDGenerator_Generator].
  unfold UUIDGenerator.Generate, UUIDGenerator.Version, NewGenerator.
  cbn [version].
  split; [reflexivity|]. split; [|split; [|split]].
  - intros ->. reflexivity.
  - intros ->. reflexivity.
  - intros H4 H1. apply Z.eqb_neq in H4, H1. rewrite H4, H1. reflexivity.
  - intros r Hr.
    assert (E4 : snd (generateV4 rand_Read) = None)
      by (unfold generateV4; rewrite Hr; reflexivity).
    assert (E1 : snd (generateV1 rand_Read now) = None)
      by (unfold generateV1; rewrite Hr; reflexivity).
    destruct (_ =? _); [exact E4|]. destruct (_ =? _); [exact E1|exact E4].
Qed.

(** * The theorems at the sample values *)

Ltac wf_sample := apply wf_uuidb_spec; vm_compute; reflexivity.

Lemma Parse_String_roundtrip_witness :
  Parse (UUID.String sample_uuid) = (sample_uuid, None).
Proof. apply Parse_String_roundtrip. wf_sample. Defined.

Lemma Parse_spec_witness :
  exists u : UUID, Parse sample_text = (u, None) /\ u.[0] = 85 /\ u.[15] = 0.
Proof.
  destruct (Parse_spec sample_text) as (_ & _ & H & _).
  destruct (H eq_refl eq_refl) as (u & E & _ & -> & _).
  exists (bytes_of_hex (strip sample_text)).
  split; [exact E|]. split; reflexivity.
Defined.

Lemma generateV4_random_strategy_witness :
  exists u : UUID,
    generateV4 sample_Read = (u, None) /\
    UUID.Version u = VersionRandom /\ UUID.Variant u = VariantRFC4122 /\
    u.[6] = 70 /\ u.[8] = 136.
Proof.
  destruct (generateV4_random_strategy sample_Read sample_now sample_fill eq_refl)
    as (u & E & _ & Hver & Hvar & _); [wf_sample|].
  exists u. split; [exact E|]. split; [exact Hver|]. split; [exact Hvar|].
  injection E as <-. split; reflexivity.
Defined.

Lemma generateV1_time_based_strategy_witness :
  exists u : UUID,
    generateV1 sample_Read sample_now = (u, None) /\
    UUID.Version u = VersionTimeBased /\ UUID.Variant u = VariantRFC4122 /\
    le_value (slice u 0 6) = sample_now mod 2 ^ 48.
Proof.
  destruct (generateV1_time_based_strategy sample_Read sample_now sample_fill eq_refl)
    as (u & E & _ & _ & _ & Hle & _ & _ & _ & Hver & _ & Hvar & _); [wf_sample|].
  exists u. split; [exact E|]. split; [exact Hver|]. split; [exact Hvar|exact Hle].
Defined.

Lemma String_canonical_witness :
  String.length (UUID.String sample_uuid) = 36%nat /\
  char_at (UUID.String sample_uuid) 8 = "-"%char.
Proof.
  destruct (String_canonical sample_uuid) as (Hlen & _ & Hpos & _); [wf_sample|].
  split; [exact Hlen|]. exact (Hpos 8%nat ltac:(lia)).
Defined.

Lemma Compare_total_order_witness :
  UUID.Compare sample_uuid sample_fill = - UUID.Compare sample_fill sample_uuid /\
  (UUID.Compare sample_uuid sample_fill <= 0 ->
   UUID.Compare sample_fill sample_fill <= 0 ->
   UUID.Compare sample_uuid sample_fill <= 0).
Proof.
  destruct (Compare_total_order sample_uuid sample_fill sample_fill)
    as (_ & _ & _ & _ & Hopp & Htrans); try wf_sample.
  split; [exact Hopp|exact Htrans].
Defined.

Lemma Scan_spec_witness :
  UUID.Scan sample_uuid UUID.VNil = (Nil, None) /\
  UUID.Scan sample_uuid (UUID.VBytes sample_fill) = (sample_fill, None) /\
  UUID.Scan sample_uuid (UUID.VInt64 7) = (sample_uuid, Some (CannotScan "int64")).
Proof.
  destruct (Scan_spec sample_uuid) as (Hnil & _ & H16 & _ & Hother); [wf_sample|].
  split; [exact Hnil|]. split; [exact (H16 sample_fill eq_refl)|].
  exact (proj1 (Hother (UUID.VInt64 7) eq_refl)).
Defined.

Lemma adapters_keep_receiver_on_error_witness :
  fst (UUID.UnmarshalJSON sample_json_Unmarshal sample_uuid []) = sample_uuid /\
  fst (UUID.UnmarshalText sample_uuid [103]) = sample_uuid /\
  fst (UUID.Scan sample_uuid (UUID.VBool true)) = sample_uuid.
Proof.
  destruct (adapters_keep_receiver_on_error sample_json_Unmarshal sample_uuid)
    as (Hjson & Htext & Hscan).
  split; [exact (Hjson [] _ eq_refl)|].
  split; [exact (Htext [103] _ eq_refl)|].
  exact (Hscan (UUID.VBool true) _ eq_refl).
Defined.

Lemma NewGenerator_strategy_witness :
  Generate (NewGenerator VersionNameBasedSHA1) sample_Read sample_now
  = generateV4 sample_Read /\
  snd (Generate (NewGenerator VersionNameBasedSHA1) sample_Read sample_now) = None.
Proof.
  destruct (NewGenerator_strategy VersionNameBasedSHA1 sample_Read sample_now)
    as (_ & _ & _ & Hother & Hok).
  split.
  - apply Hother; discriminate.
  - exact (Hok sample_fill eq_refl).
Defined.

(** C4, as it is stated, fails: a byte slice that holds the 36 bytes of a
    canonical text is neither [nil], nor a string, nor a sequence of sixteen
    bytes, and [Scan] accepts it, parsing it as text; and the empty byte
    slice is refused with the length error of [Parse], which is no
    [UnsupportedInputError]. *)
Lemma Scan_other_shape_counterexample :
  other_shape (UUID.VBytes sample_text_bytes) /\
  UUID.Scan Nil (UUID.VBytes sample_text_bytes) = (sample_uuid, None) /\
  other_shape (UUID.VBytes []) /\
  UUID.Scan Nil (UUID.VBytes []) = (Nil, Some (InvalidLength 0)) /\
  ~ UnsupportedInputError (InvalidLength 0) /\
  ~ (forall (u : UUID) (v : UUID.value), wf_uuid u -> other_shape v ->
       exists e : error, snd (UUID.Scan u v) = Some e /\ UnsupportedInputError e).
Proof.
  assert (H36 : other_shape (UUID.VBytes sample_text_bytes)).
  { split; [discriminate|]. split; [discriminate|].
    intros b Hb [= E]. rewrite <- E in Hb. discriminate Hb. }
  assert (H0 : other_shape (UUID.VBytes [])).
  { split; [discriminate|]. split; [discriminate|].
    intros b Hb [= E]. rewrite <- E in Hb. discriminate Hb. }
  split; [exact H36|]. split; [reflexivity|]. split; [exact H0|].
  split; [reflexivity|]. split; [intros H; exact H|].
  intros H. destruct (H Nil _ wf_Nil H36) as (e & He & _).
  discriminate He.
Qed.

(** * Further properties of parsing and formatting *)

Lemma strip_append (a b : string) : strip (a ++ b) = (strip a ++ strip b)%string.
Proof.
  induction a as [|c a IH]; [reflexivity|].
  cbn [append strip]. destruct (is_separator c); [exact IH|].
  cbn [append]. rewrite IH. reflexivity.
Qed.

Lemma strip_hex (s : string) :
  string_forallb is_hex_digit s = true -> strip s = s.
Proof.
  induction s as [|c s IH]; [reflexivity|].
  cbn [string_forallb strip]. rewrite andb_true_iff. intros [Hc Hs].
  rewrite (hex_not_separator c Hc), IH by exact Hs. reflexivity.
Qed.

Lemma strip_EncodeToString (l : list byte) :
  strip (hex.EncodeToString l) = hex.EncodeToString l.
Proof.
  apply strip_hex.
  apply (string_forallb_impl is_lower_hex); [exact lower_hex_is_hex|].
  apply EncodeToString_lower_hex.
Qed.

Lemma strip_String (u : UUID) :
  List.length u = 16%nat -> strip (UUID.String u) = hex.EncodeToString u.
Proof.
  intros H. rewrite <- ReplaceAll_strip, (String_without_hyphens u H).
  rewrite !EncodeToString_no_separator by reflexivity. reflexivity.
Qed.

Lemma Parse_strip_eq (s1 s2 : string) :
  strip s1 = strip s2 -> Parse s1 = Parse s2.
Proof. intros H. rewrite !Parse_unfold, H. reflexivity. Qed.

(** A text that, without its separators, is the 32 digits of [v] parses
    to [v]. *)
Lemma Parse_stripped_hex (s : string) (v : UUID) :
  wf_uuid v -> strip s = hex.EncodeToString v -> Parse s = (v, None).
Proof.
  intros [Hlen Hbytes] H. rewrite Parse_unfold, H.
  rewrite EncodeToString_length, Hlen. cbn [Nat.mul Nat.add Nat.eqb negb].
  rewrite (DecodeString_EncodeToString v Hbytes).
  rewrite copy_full; [reflexivity|]. rewrite Hlen. reflexivity.
Qed.

Lemma Parse_success (s : string) (u : UUID) :
  Parse s = (u, None) ->
  wf_uuid u /\ u = bytes_of_hex (strip s) /\
  String.length (strip s) = 32%nat /\
  string_forallb is_hex_digit (strip s) = true.
Proof.
  intros H.
  destruct (Parse_cases s)
    as [[_ E]|[(_ & c & _ & E)|(Hlen & Hc & E & Hwf)]];
    rewrite E in H; try discriminate H.
  injection H as <-. repeat split; try apply Hwf; auto.
  apply first_non_hex_None, Hc.
Qed.

(** X1.  [Parse] does not look at where the separators are: it gives the
    same result for a text and for the text without its ['-'], ['{'] and
    ['}'], so a separator may be put in or left out at any place, and braces
    need not come in pairs. *)
Theorem Parse_separators_anywhere (s a b : string) (c : ascii) :
  Parse (strip s) = Parse s /\
  (is_separator c = true -> Parse (a ++ String c b) = Parse (a ++ b)).
Proof.
  split.
  - apply Parse_strip_eq. rewrite <- (ReplaceAll_strip s) at 2.
    rewrite <- (ReplaceAll_strip (strip s)).
    assert (Hno : forall t, strip (strip t) = strip t).
    { induction t as [|x t IH]; [reflexivity|]. cbn [strip].
      destruct (is_separator x) eqn:Ex; [exact IH|].
      cbn [strip]. rewrite Ex, IH. reflexivity. }
    rewrite !ReplaceAll_strip. apply Hno.
  - intros Hc. apply Parse_strip_eq. rewrite !strip_append.
    cbn [strip]. rewrite Hc. reflexivity.
Qed.

(** X2.  For a UUID [v], [Parse] returns [v] for the canonical text of [v]
    in braces, for its 32 digits without hyphens, and for these digits in
    braces. *)
Theorem Parse_accepted_variants (v : UUID) :
  wf_uuid v ->
  Parse ("{" ++ UUID.String v ++ "}") = (v, None) /\
  Parse (hex.EncodeToString v) = (v, None) /\
  Parse ("{" ++ hex.EncodeToString v ++ "}") = (v, None).
Proof.
  intros Hv. pose proof Hv as [Hlen _].
  assert (Hnil : forall t : string, (t ++ EmptyString)%string = t).
  { induction t as [|x t IH]; cbn; congruence. }
  split; [|split]; apply Parse_stripped_hex; try exact Hv.
  - rewrite !strip_append, (strip_String v Hlen). cbn [strip is_separator
      Ascii.eqb Bool.eqb orb append]. apply Hnil.
  - apply strip_EncodeToString.
  - rewrite !strip_append, strip_EncodeToString. cbn [strip is_separator
      Ascii.eqb Bool.eqb orb append]. apply Hnil.
Qed.

Lemma upper_hex_facts (c : ascii) :
  hex.fromHexChar (upper_hex c) = hex.fromHexChar c /\
  is_separator (upper_hex c) = is_separator c /\
  (hex.fromHexChar c = None -> upper_hex c = c).
Proof. each_ascii c; vm_compute; repeat split; congruence. Qed.

Lemma string_map_length (f : ascii -> ascii) (s : string) :
  String.length (string_map f s) = String.length s.
Proof. induction s as [|c s IH]; simpl; congruence. Qed.

Lemma strip_upper_hex (s : string) :
  strip (string_map upper_hex s) = string_map upper_hex (strip s).
Proof.
  induction s as [|c s IH]; [reflexivity|]. cbn [string_map strip].
  destruct (upper_hex_facts c) as (_ & -> & _).
  destruct (is_separator c); [exact IH|]. cbn [string_map]. congruence.
Qed.

(** [DecodeString] does not tell a capital digit from a small one. *)
Lemma DecodeString_upper_hex (t : string) :
  hex.DecodeString (string_map upper_hex t) = hex.DecodeString t.
Proof.
  enough (H : hex.DecodeString (string_map upper_hex t) = hex.DecodeString t /\
              forall c, hex.DecodeString (string_map upper_hex (String c t))
                        = hex.DecodeString (String c t)) by apply H.
  induction t as [|x t [IH1 IH2]].
  - split; [reflexivity|]. intros c. cbn [string_map hex.DecodeString].
    destruct (upper_hex_facts c) as (-> & _ & Hc).
    destruct (hex.fromHexChar c); [reflexivity|]. rewrite Hc; reflexivity.
  - split; [apply IH2|]. intros c.
    cbn [string_map hex.DecodeString].
    destruct (upper_hex_facts c) as (-> & _ & Hc).
    destruct (upper_hex_facts x) as (-> & _ & Hx).
    destruct (hex.fromHexChar c); [|rewrite Hc; reflexivity].
    destruct (hex.fromHexChar x); [|rewrite Hx; reflexivity].
    rewrite IH1. reflexivity.
Qed.

(** X3.  [Parse] (and its alias [FromString]) reads capital hexadecimal
    letters as it reads small ones: a text and the same text with its
    letters [a] to [f] in capitals give the same result, value and error. *)
Theorem Parse_upper_hex (s : string) :
  Parse (string_map upper_hex s) = Parse s /\
  FromString (string_map upper_hex s) = FromString s.
Proof.
  assert (E : Parse (string_map upper_hex s) = Parse s).
  { rewrite !Parse_unfold, strip_upper_hex, string_map_length.
    rewrite DecodeString_upper_hex. reflexivity. }
  split; exact E.
Qed.

(** X4.  Whatever [Parse] returns is a value of sixteen bytes: the nil UUID
    with every error, and on success a UUID whose canonical text parses
    back to it, so formatting a parsed text gives its canonical form. *)
Theorem Parse_result (s : string) :
  wf_uuid (fst (Parse s)) /\
  (snd (Parse s) <> None -> fst (Parse s) = Nil) /\
  (snd (Parse s) = None ->
     Parse (UUID.String (fst (Parse s))) = Parse s /\
     strip (UUID.String (fst (Parse s))) = hex.EncodeToString (fst (Parse s))).
Proof.
  destruct (Parse_cases s)
    as [[_ E]|[(_ & c & _ & E)|(Hlen & Hc & E & Hwf)]]; rewrite E; cbn [fst snd].
  - split; [exact wf_Nil|]. split; [reflexivity|discriminate].
  - split; [exact wf_Nil|]. split; [reflexivity|discriminate].
  - split; [exact Hwf|]. split; [intros H; congruence|]. intros _.
    split; [|apply strip_String, Hwf].
    apply Parse_stripped_hex; [exact Hwf|]. apply strip_String, Hwf.
Qed.

(** X5.  Two UUIDs with the same canonical text are equal. *)
Theorem String_injective (u v : UUID) :
  wf_uuid u -> wf_uuid v -> UUID.String u = UUID.String v -> u = v.
Proof.
  intros [Hlu Hbu] [Hlv Hbv] H.
  apply (f_equal strip) in H. rewrite !strip_String in H by assumption.
  apply (f_equal bytes_of_hex) in H.
  rewrite !bytes_of_hex_EncodeToString in H by assumption. exact H.
Qed.

(** X6.  The URN of a UUID is its canonical text after ["urn:uuid:"], 45
    characters, and [Parse] does not read it back: the nine characters of
    the prefix stay, 41 characters are left and [Parse] fails with the
    length error. *)
Theorem URN_not_parsed (u : UUID) :
  wf_uuid u ->
  String.length (UUID.URN u) = 45%nat /\
  Parse (UUID.URN u) = (Nil, Some (InvalidLength 41)).
Proof.
  intros [Hlen _]. unfold UUID.URN. split.
  - rewrite string_length_append. unfold UUID.String.
    rewrite !string_length_append, !EncodeToString_length.
    list16 u Hlen. reflexivity.
  - rewrite Parse_unfold, strip_append, (strip_String u Hlen).
    rewrite string_length_append, EncodeToString_length, Hlen. reflexivity.
Qed.

(** * Further properties of the value type *)

Lemma Bytes_full (u : UUID) : List.length u = 16%nat -> UUID.Bytes u = u.
Proof.
  intros H. unfold UUID.Bytes, slice. cbn [Nat.sub skipn].
  rewrite <- H. apply firstn_all.
Qed.

(** X7.  [ParseBytes] succeeds exactly on a slice of sixteen bytes, and
    then returns these bytes; on a slice of another length it returns the
    nil UUID and an error that holds the length.  So [ParseBytes] reads
    back what [Bytes] gives. *)
Theorem ParseBytes_spec (b : list byte) :
  (snd (ParseBytes b) = None <-> List.length b = 16%nat) /\
  (List.length b = 16%nat -> ParseBytes b = (b, None)) /\
  (List.length b <> 16%nat ->
     ParseBytes b = (Nil, Some (InvalidByteLength (List.length b)))) /\
  (List.length b = 16%nat -> ParseBytes (UUID.Bytes b) = (b, None)).
Proof.
  assert (H16 : List.length b = 16%nat -> ParseBytes b = (b, None)).
  { intros H. unfold ParseBytes. rewrite H. cbn [Nat.eqb negb].
    rewrite copy_full by (rewrite H; reflexivity). reflexivity. }
  assert (Hne : List.length b <> 16%nat ->
                ParseBytes b = (Nil, Some (InvalidByteLength (List.length b)))).
  { intros H. unfold ParseBytes. apply Nat.eqb_neq in H. rewrite H.
    reflexivity. }
  split; [|split; [exact H16|split; [exact Hne|]]].
  - destruct (Nat.eq_dec (List.length b) 16) as [H|H].
    + rewrite (H16 H). tauto.
    + rewrite (Hne H). cbn [snd]. split; [discriminate|contradiction].
  - intros H. rewrite (Bytes_full b H). exact (H16 H).
Qed.

Lemma Variant_of_byte (b : byte) :
  is_byte b ->
  (if Z.land b 128 =? 0 then VariantNCS
   else if Z.land b 192 =? 128 then VariantRFC4122
   else if Z.land b 224 =? 192 then VariantMicrosoft
   else VariantFuture) = variant_of_range b.
Proof.
  intros Hb. apply Z.eqb_eq.
  apply (byte_cases
    (fun b => (if Z.land b 128 =? 0 then VariantNCS
               else if Z.land b 192 =? 128 then VariantRFC4122
               else if Z.land b 224 =? 192 then VariantMicrosoft
               else VariantFuture) =? variant_of_range b));
    [vm_compute; reflexivity|exact Hb].
Qed.

(** X8.  The version of a UUID is the high nibble of byte 6, a number from
    0 to 15.  The variant is decided by the value of byte 8: NCS below 128,
    RFC 4122 from 128 to 191, Microsoft from 192 to 223 and Future from
    224 on. *)
Theorem Version_Variant_ranges (u : UUID) :
  wf_uuid u ->
  UUID.Version u = u.[6] / 16 /\ 0 <= UUID.Version u < 16 /\
  (UUID.Variant u = VariantNCS <-> u.[8] < 128) /\
  (UUID.Variant u = VariantRFC4122 <-> 128 <= u.[8] < 192) /\
  (UUID.Variant u = VariantMicrosoft <-> 192 <= u.[8] < 224) /\
  (UUID.Variant u = VariantFuture <-> 224 <= u.[8]).
Proof.
  intros [_ Hb].
  pose proof (index_is_byte u 6 Hb) as H6.
  pose proof (index_is_byte u 8 Hb) as H8.
  assert (Ev : UUID.Version u = u.[6] / 16).
  { unfold UUID.Version. rewrite Z.shiftr_div_pow2 by lia. reflexivity. }
  split; [exact Ev|]. split.
  { rewrite Ev. unfold is_byte in H6. split.
    - apply Z.div_pos; lia.
    - apply Z.div_lt_upper_bound; lia. }
  unfold UUID.Variant. rewrite (Variant_of_byte _ H8).
  unfold variant_of_range, VariantNCS, VariantRFC4122, VariantMicrosoft,
    VariantFuture.
  destruct (Z.ltb_spec u.[8] 128); [repeat split; intros; try lia|].
  destruct (Z.ltb_spec u.[8] 192); [repeat split; intros; try lia|].
  destruct (Z.ltb_spec u.[8] 224); repeat split; intros; try lia.
Qed.

(** X9.  The canonical text shows the version and the variant: the digit at
    place 14, the first of the third group, is the version, and the digit
    at place 19, the first of the fourth group, is the high nibble of byte
    8, which decides the variant. *)
Theorem String_shows_version (u : UUID) :
  wf_uuid u ->
  hex_value (char_at (UUID.String u) 14) = Some (UUID.Version u) /\
  hex_value (char_at (UUID.String u) 19) = Some (u.[8] / 16).
Proof.
  intros [Hlen Hb].
  pose proof (index_is_byte u 6 Hb) as H6.
  pose proof (index_is_byte u 8 Hb) as H8.
  destruct (digits_of_byte _ H6) as (E6 & _ & _).
  destruct (digits_of_byte _ H8) as (E8 & _ & _).
  rewrite fromHexChar_hex_value in E6, E8.
  assert (Ed : u.[8] / 16 = Z.shiftr u.[8] 4)
    by (rewrite Z.shiftr_div_pow2 by lia; reflexivity).
  rewrite Ed. unfold UUID.Version. clear Hb H6 H8 Ed.
  list16 u Hlen. split; [exact E6|exact E8].
Qed.

Lemma Equal_true (u v : UUID) : UUID.Equal u v = true <-> u = v.
Proof.
  unfold UUID.Equal. destruct (list_eq_dec Z.eq_dec u v) as [E|N].
  - tauto.
  - split; [discriminate|contradiction].
Qed.

(** X10.  [Equal] holds exactly of two equal UUIDs, which is when [Compare]
    gives 0; it is reflexive and symmetric; and [IsNil] holds exactly of
    the UUID whose sixteen bytes are zero. *)
Theorem Equal_IsNil_spec (u v : UUID) :
  wf_uuid u -> wf_uuid v ->
  (UUID.Equal u v = true <-> u = v) /\
  (UUID.Equal u v = true <-> UUID.Compare u v = 0) /\
  UUID.Equal u u = true /\
  UUID.Equal u v = UUID.Equal v u /\
  (UUID.IsNil u = true <-> forall i : nat, (i < 16)%nat -> u.[i] = 0).
Proof.
  intros [Hu _] [Hv _].
  assert (Hcmp : UUID.Compare u v = 0 <-> u = v).
  { unfold UUID.Compare. rewrite Compare_loop_equal. split.
    - intros H. apply index_ext; [congruence|]. intros i Hi. apply H. lia.
    - intros -> j _. reflexivity. }
  split; [apply Equal_true|]. split; [rewrite Hcmp; apply Equal_true|].
  split; [apply Equal_true; reflexivity|]. split.
  - destruct (UUID.Equal u v) eqn:E1, (UUID.Equal v u) eqn:E2; try reflexivity.
    + apply Equal_true in E1. symmetry in E1. apply Equal_true in E1. congruence.
    + apply Equal_true in E2. symmetry in E2. apply Equal_true in E2. congruence.
  - unfold UUID.IsNil. rewrite Equal_true. split.
    + intros -> i Hi. do 16 (destruct i as [|i]; [reflexivity|]). lia.
    + intros H. apply index_ext; [rewrite Hu; reflexivity|].
      rewrite Hu. intros i Hi. rewrite (H i Hi).
      do 16 (destruct i as [|i]; [reflexivity|]). lia.
Qed.

(** * Further properties of the generators *)

Lemma generateV4_byte6 (rand_Read : Reader) (r : list byte) :
  rand_Read Nil = (r, None) -> wf_uuid r ->
  snd (generateV4 rand_Read) = None /\
  UUID.Version (fst (generateV4 rand_Read)) = 4.
Proof.
  intros Hread [Hlen Hb]. unfold generateV4. rewrite Hread. cbn [fst snd].
  split; [reflexivity|]. unfold UUID.Version.
  rewrite index_store_ne by discriminate.
  rewrite index_store_eq by lia.
  apply (force_nibble r.[6] 4 (index_is_byte r 6 Hb) (or_intror eq_refl)).
Qed.

Lemma generateV1_byte6 (rand_Read : Reader) (now : Z) (r : list byte) :
  rand_Read Nil = (r, None) -> wf_uuid r ->
  snd (generateV1 rand_Read now) = None /\
  UUID.Version (fst (generateV1 rand_Read now)) = 1.
Proof.
  intros Hread [Hlen Hb]. unfold generateV1. rewrite Hread. cbn [fst snd].
  split; [reflexivity|]. unfold UUID.Version.
  rewrite index_store_ne by discriminate.
  rewrite index_store_eq by (rewrite !length_store; lia).
  rewrite index_store_eq by (rewrite !length_store; lia).
  apply (force_nibble _ 1 (to_byte_is_byte _) (or_introl eq_refl)).
Qed.

Lemma Version_not_nil (u : UUID) : UUID.Version u <> 0 -> UUID.IsNil u = false.
Proof.
  intros H. destruct (UUID.IsNil u) eqn:E; [|reflexivity].
  unfold UUID.IsNil in E. apply Equal_true in E. subst u.
  exfalso. apply H. reflexivity.
Qed.

(** X11.  A UUID that a strategy makes from a successful read of the random
    source is never the nil UUID, whatever bytes the source gave and
    whatever the clock reads: the version nibble is not zero. *)
Theorem generated_not_nil (rand_Read : Reader) (now : Z) (r : list byte) :
  rand_Read Nil = (r, None) -> wf_uuid r ->
  UUID.IsNil (fst (generateV4 rand_Read)) = false /\
  UUID.IsNil (fst (generateV1 rand_Read now)) = false /\
  UUID.IsNil (New rand_Read) = false /\
  MustNew rand_Read = Some (New rand_Read).
Proof.
  intros Hread Hr.
  destruct (generateV4_byte6 rand_Read r Hread Hr) as [E4 V4].
  destruct (generateV1_byte6 rand_Read now r Hread Hr) as [E1 V1].
  assert (EN : New rand_Read = fst (generateV4 rand_Read)).
  { unfold New. destruct (generateV4 rand_Read). reflexivity. }
  split; [apply Version_not_nil; rewrite V4; discriminate|].
  split; [apply Version_not_nil; rewrite V1; discriminate|].
  split; [rewrite EN; apply Version_not_nil; rewrite V4; discriminate|].
  rewrite EN. unfold MustNew, NewV4, Must.
  destruct (generateV4 rand_Read) as [u e]. cbn [snd] in E4. subst e.
  reflexivity.
Qed.

(** X12.  The version of the UUID that a generator makes is
    [VersionTimeBased] when the generator was made for it and
    [VersionRandom] otherwise; so it is the version the generator reports
    only for these two versions, and a generator made for another version
    reports that version and makes UUIDs of [VersionRandom]. *)
Theorem Generate_version (tag : Version) (rand_Read : Reader) (now : Z) (r : list byte) :
  rand_Read Nil = (r, None) -> wf_uuid r ->
  UUID.Version (fst (Generate (NewGenerator tag) rand_Read now))
  = (if tag =? VersionTimeBased then VersionTimeBased else VersionRandom) /\
  (UUID.Version (fst (Generate (NewGenerator tag) rand_Read now))
   = GeneratorVersion (NewGenerator tag)
   <-> tag = VersionTimeBased \/ tag = VersionRandom).
Proof.
  intros Hread Hr.
  destruct (generateV4_byte6 rand_Read r Hread Hr) as [_ V4].
  destruct (generateV1_byte6 rand_Read now r Hread Hr) as [_ V1].
  cbn [Generate GeneratorVersion UUIDGenerator_Generator].
  unfold UUIDGenerator.Generate, UUIDGenerator.Version, NewGenerator.
  cbn [version]. unfold VersionRandom, VersionTimeBased in *.
  destruct (Z.eqb_spec tag 4) as [->|H4].
  - cbn [Z.eqb Pos.eqb]. rewrite V4. split; [reflexivity|]. split; auto.
  - destruct (Z.eqb_spec tag 1) as [->|H1].
    + rewrite V1. split; [reflexivity|]. split; auto.
    + rewrite V4. split; [reflexivity|]. split; [intros; congruence|].
      intros [H|H]; congruence.
Qed.

Lemma land_shiftr_mod (x k n m : Z) :
  0 <= k -> 0 <= n -> k + n <= m ->
  Z.land (Z.shiftr (x mod 2 ^ m) k) (Z.ones n) = Z.land (Z.shiftr x k) (Z.ones n).
Proof.
  intros Hk Hn Hm. apply Z.bits_inj'. intros j Hj.
  rewrite !Z.land_spec, !Z.shiftr_spec by exact Hj.
  destruct (Z.lt_ge_cases j n) as [Hlt|Hge].
  - rewrite Z.mod_pow2_bits_low by lia. reflexivity.
  - rewrite Z.ones_spec_high by lia. rewrite !andb_false_r. reflexivity.
Qed.

Lemma to_byte_shiftr_mod (x k m : Z) :
  0 <= k -> k + 8 <= m ->
  to_byte (Z.shiftr (x mod 2 ^ m) k) = to_byte (Z.shiftr x k).
Proof.
  intros Hk Hm. rewrite !to_byte_land. change 255 with (Z.ones 8).
  apply land_shiftr_mod; lia.
Qed.

Lemma nibble_shiftr_mod (x : Z) :
  Z.land (to_byte (Z.shiftr (x mod 2 ^ 52) 48)) 15
  = Z.land (to_byte (Z.shiftr x 48)) 15.
Proof.
  rewrite !to_byte_land, <- !Z.land_assoc.
  change (Z.land 255 15) with (Z.ones 4). apply land_shiftr_mod; lia.
Qed.

(** The time-based strategy looks at the low 52 bits of the clock only. *)
Lemma generateV1_mod (rand_Read : Reader) (now : Z) :
  generateV1 rand_Read (now mod 2 ^ 52) = generateV1 rand_Read now.
Proof.
  unfold generateV1. destruct (rand_Read Nil) as [r [e|]]; [reflexivity|].
  assert (E0 : to_byte (now mod 2 ^ 52) = to_byte now).
  { rewrite <- (Z.shiftr_0_r (now mod 2 ^ 52)), <- (Z.shiftr_0_r now) at 1.
    apply to_byte_shiftr_mod; lia. }
  rewrite !nibble_shiftr_mod, !E0.
  rewrite !(to_byte_shiftr_mod now) by lia. reflexivity.
Qed.

(** X13.  The time-based strategy keeps 52 bits of the clock: two readings
    that agree modulo [2 ^ 52] nanoseconds give, from the same random
    bytes, the same UUID. *)
Theorem generateV1_clock_wraps (rand_Read : Reader) (now1 now2 : Z) :
  now1 mod 2 ^ 52 = now2 mod 2 ^ 52 ->
  generateV1 rand_Read now1 = generateV1 rand_Read now2 /\
  NewV1 rand_Read now1 = NewV1 rand_Read now2.
Proof.
  intros H.
  assert (E : generateV1 rand_Read now1 = generateV1 rand_Read now2).
  { rewrite <- (generateV1_mod rand_Read now1), H. apply generateV1_mod. }
  split; exact E.
Qed.

(** * Further properties of the adapters *)

Lemma ascii_of_byte_of_ascii (c : ascii) : ascii_of_byte (byte_of_ascii c) = c.
Proof.
  unfold ascii_of_byte, byte_of_ascii. rewrite N2Z.id. apply ascii_N_embedding.
Qed.

Lemma string_of_bytes_of_string (s : string) :
  string_of_bytes (bytes_of_string s) = s.
Proof.
  induction s as [|c s IH]; [reflexivity|].
  cbn [bytes_of_string string_of_bytes].
  rewrite ascii_of_byte_of_ascii, IH. reflexivity.
Qed.

Lemma bytes_of_string_length (s : string) :
  List.length (bytes_of_string s) = String.length s.
Proof. induction s as [|c s IH]; simpl; congruence. Qed.

Lemma String_length (u : UUID) :
  List.length u = 16%nat -> String.length (UUID.String u) = 36%nat.
Proof.
  intros H. unfold UUID.String.
  rewrite !string_length_append, !EncodeToString_length.
  list16 u H. reflexivity.
Qed.

Lemma Parse_String (v : UUID) : wf_uuid v -> Parse (UUID.String v) = (v, None).
Proof.
  intros Hv. apply Parse_stripped_hex; [exact Hv|]. apply strip_String, Hv.
Qed.

(** X14.  [MarshalText] never fails, gives 36 bytes, and [UnmarshalText]
    reads them back: after it the receiver, whatever it held, holds the
    UUID that was marshalled. *)
Theorem UnmarshalText_MarshalText (u v : UUID) :
  wf_uuid v ->
  snd (UUID.MarshalText v) = None /\
  List.length (fst (UUID.MarshalText v)) = 36%nat /\
  UUID.UnmarshalText u (fst (UUID.MarshalText v)) = (v, None).
Proof.
  intros Hv. unfold UUID.MarshalText. cbn [fst snd].
  split; [reflexivity|]. split.
  - rewrite bytes_of_string_length. apply String_length, Hv.
  - rewrite UnmarshalText_assign, string_of_bytes_of_string.
    rewrite (Parse_String v Hv). reflexivity.
Qed.


(** X16.  When the JSON encoder gives [data] for the canonical text of [v]
    and the JSON decoder reads this text back from [data], [UnmarshalJSON]
    of what [MarshalJSON] gives for [v] sets the receiver to [v]. *)
Theorem UnmarshalJSON_MarshalJSON
    (json_Marshal : string -> list byte * option error)
    (json_Unmarshal : list byte -> string * option error)
    (u v : UUID) (data : list byte) :
  wf_uuid v ->
  json_Marshal (UUID.String v) = (data, None) ->
  json_Unmarshal data = (UUID.String v, None) ->
  UUID.MarshalJSON json_Marshal v = (data, None) /\
  UUID.UnmarshalJSON json_Unmarshal u data = (v, None).
Proof.
  intros Hv Hm Hu. unfold UUID.MarshalJSON, UUID.UnmarshalJSON.
  split; [exact Hm|]. rewrite Hu, (Parse_String v Hv). reflexivity.
Qed.

Lemma assign_parsed_wf (u : UUID) (s : string) :
  wf_uuid u -> wf_uuid (fst (assign_parsed u (Parse s))).
Proof.
  intros Hu. destruct (Parse s) as [parsed [e|]] eqn:E; cbn; [exact Hu|].
  apply (Parse_success s parsed E).
Qed.

(** X17.  The receiver of an adapter stays a value of sixteen bytes: after
    [UnmarshalText], [UnmarshalJSON] and [Scan], with or without an error,
    it is one when it was one before; and what [ParseBytes] returns is
    one. *)
Theorem adapters_keep_sixteen_bytes
    (json_Unmarshal : list byte -> string * option error) (u : UUID) :
  wf_uuid u ->
  (forall text : list byte, wf_uuid (fst (UUID.UnmarshalText u text))) /\
  (forall data : list byte,
     wf_uuid (fst (UUID.UnmarshalJSON json_Unmarshal u data))) /\
  (forall s : string, wf_uuid (fst (UUID.Scan u (UUID.VString s)))) /\
  (forall b : list byte, Forall is_byte b ->
     wf_uuid (fst (UUID.Scan u (UUID.VBytes b))) /\
     wf_uuid (fst (ParseBytes b))) /\
  (forall v : UUID.value, other_type v = true \/ v = UUID.VNil ->
     wf_uuid (fst (UUID.Scan u v))).
Proof.
  intros Hu. split; [|split; [|split; [|split]]].
  - intros text. rewrite UnmarshalText_assign. apply assign_parsed_wf, Hu.
  - intros data. unfold UUID.UnmarshalJSON.
    destruct (json_Unmarshal data) as [s [e|]]; [exact Hu|].
    apply (assign_parsed_wf u s Hu).
  - intros s. rewrite Scan_string. apply assign_parsed_wf, Hu.
  - intros b Hb. split.
    + rewrite Scan_bytes. destruct (Nat.eqb_spec (List.length b) 16) as [H|H].
      * cbn [fst]. destruct Hu as [Hlu _].
        rewrite copy_full by congruence. split; assumption.
      * apply assign_parsed_wf, Hu.
    + unfold ParseBytes. destruct (Nat.eqb_spec (List.length b) 16) as [H|H];
        cbn [negb fst]; [|exact wf_Nil].
      rewrite copy_full by (rewrite H; reflexivity). split; assumption.
  - intros v [Hv| ->]; [|exact wf_Nil].
    destruct v; try discriminate Hv; exact Hu.
Qed.

(** X18.  [MustParse] panics exactly when the text, without its
    separators, is not 32 hexadecimal digits; otherwise it returns the
    UUID that [Parse] returns; and [Must] panics on every error. *)
Theorem MustParse_spec (s : string) :
  (MustParse s = None <->
     ~ (String.length (strip s) = 32%nat /\
        string_forallb is_hex_digit (strip s) = true)) /\
  (forall u : UUID, MustParse s = Some u <-> Parse s = (u, None)) /\
  (forall (u : UUID) (e : error), Must (u, Some e) = None).
Proof.
  unfold MustParse, Must. split; [|split].
  - destruct (Parse_cases s)
      as [[Hlen E]|[(Hlen & c & Hc & E)|(Hlen & Hc & E & Hwf)]]; rewrite E.
    + split; [intros _ [H _]; contradiction|reflexivity].
    + split; [|reflexivity]. intros _ [_ H].
      apply first_non_hex_None in H. congruence.
    + split; [discriminate|]. intros H. exfalso. apply H.
      split; [exact Hlen|]. apply first_non_hex_None, Hc.
  - intros u. destruct (Parse s) as [p [e|]].
    + split; discriminate.
    + split; intros [= ->]; reflexivity.
  - reflexivity.
Qed.

(** * The order and the canonical text *)

(** The two digits of a byte compare as the bytes do. *)
Lemma digits_compare (a b : byte) (s t : string) :
  is_byte a -> is_byte b ->
  string_compare
    (String (hex.digit (Z.shiftr a 4)) (String (hex.digit (Z.land a 15)) s))
    (String (hex.digit (Z.shiftr b 4)) (String (hex.digit (Z.land b 15)) t))
  = if a <? b then -1 else if a >? b then 1 else string_compare s t.
Proof.
  intros Ha Hb.
  assert (H := byte_cases
    (fun a => forallb (fun b =>
       let ha := byte_of_ascii (hex.digit (Z.shiftr a 4)) in
       let la := byte_of_ascii (hex.digit (Z.land a 15)) in
       let hb := byte_of_ascii (hex.digit (Z.shiftr b 4)) in
       let lb := byte_of_ascii (hex.digit (Z.land b 15)) in
       if a <? b then (ha <? hb) || (negb (ha >? hb) && (la <? lb))
       else if a >? b
            then negb (ha <? hb) && ((ha >? hb) || (negb (la <? lb) && (la >? lb)))
            else negb (ha <? hb) && negb (ha >? hb)
                 && negb (la <? lb) && negb (la >? lb))
       all_bytes)).
  specialize (H ltac:(vm_compute; reflexivity) a Ha). cbv beta in H.
  rewrite forallb_forall in H. specialize (H b (all_bytes_complete b Hb)).
  cbv zeta in H. cbn [string_compare].
  set (ha := byte_of_ascii (hex.digit (Z.shiftr a 4))) in *.
  set (la := byte_of_ascii (hex.digit (Z.land a 15))) in *.
  set (hb := byte_of_ascii (hex.digit (Z.shiftr b 4))) in *.
  set (lb := byte_of_ascii (hex.digit (Z.land b 15))) in *.
  destruct (a <? b), (a >? b), (ha <? hb), (ha >? hb), (la <? lb), (la >? lb);
    cbn in H |- *; congruence.
Qed.

Lemma EncodeToString_compare (l1 l2 : list byte) (s t : string) :
  List.length l1 = List.length l2 -> Forall is_byte l1 -> Forall is_byte l2 ->
  string_compare (hex.EncodeToString l1 ++ s) (hex.EncodeToString l2 ++ t)
  = bytes_compare_then l1 l2 (string_compare s t).
Proof.
  revert l2; induction l1 as [|a l1 IH]; intros [|b l2] Hlen H1 H2;
    try discriminate Hlen; [reflexivity|].
  inversion_clear H1. inversion_clear H2.
  cbn [hex.EncodeToString append bytes_compare_then].
  rewrite digits_compare by assumption.
  rewrite IH by (auto; simpl in Hlen; lia). reflexivity.
Qed.

Lemma Forall_slice (u : list byte) (lo hi : nat) :
  Forall is_byte u -> Forall is_byte (slice u lo hi).
Proof.
  intros H. unfold slice.
  assert (Hs : Forall is_byte (skipn lo u)).
  { revert lo; induction H as [|x u Hx Hu IH]; intros [|lo]; cbn [skipn];
      auto. }
  generalize (hi - lo)%nat as n. clear H.
  induction Hs as [|x l Hx Hl IH]; intros [|n]; cbn [firstn]; auto.
Qed.

(** X19.  [Compare] orders two UUIDs as their canonical texts are ordered
    as strings, so sorting the texts sorts the UUIDs. *)
Theorem Compare_String_order (u v : UUID) :
  wf_uuid u -> wf_uuid v ->
  UUID.Compare u v = string_compare (UUID.String u) (UUID.String v).
Proof.
  intros [Hlu Hbu] [Hlv Hbv].
  assert (Hnil : forall t : string, (t ++ EmptyString)%string = t).
  { induction t as [|x t IH]; cbn; congruence. }
  unfold UUID.String.
  rewrite <- (Hnil (hex.EncodeToString (slice u 10 16))).
  rewrite <- (Hnil (hex.EncodeToString (slice v 10 16))).
  assert (Hh : forall s t : string,
             string_compare ("-" ++ s) ("-" ++ t) = string_compare s t)
    by reflexivity.
  assert (Hs : forall lo hi : nat,
             List.length (slice u lo hi) = List.length (slice v lo hi)).
  { intros lo hi. unfold slice. rewrite !length_firstn, !length_skipn.
    congruence. }
  repeat (rewrite EncodeToString_compare by auto using Forall_slice;
          rewrite ?Hh).
  clear Hbu Hbv Hh Hs Hnil. list16 u Hlu. list16 v Hlv. reflexivity.
Qed.

(** * What the random strategy can return *)

Lemma store_same (a : list byte) (i : nat) : store a i a.[i] = a.
Proof.
  unfold index. revert i; induction a as [|x a IH]; intros [|i]; cbn; auto.
  rewrite IH. reflexivity.
Qed.

Lemma generateV4_value (rand_Read : Reader) (r : list byte) :
  rand_Read Nil = (r, None) ->
  generateV4 rand_Read =
  (store (store r 6 (Z.lor (Z.land r.[6] 15) 64)) 8
     (Z.lor (Z.land r.[8] 63) 128), None).
Proof.
  intros Hread. unfold generateV4. rewrite Hread.
  rewrite (index_store_ne r 6 8) by discriminate. reflexivity.
Qed.

Lemma stamped_byte6 (b : byte) :
  is_byte b -> Z.shiftr b 4 = 4 -> Z.lor (Z.land b 15) 64 = b.
Proof.
  intros Hb.
  assert (H := byte_cases
    (fun b => negb (Z.shiftr b 4 =? 4) || (Z.lor (Z.land b 15) 64 =? b))
    ltac:(vm_compute; reflexivity) b Hb).
  cbv beta in H. intros E. rewrite E in H. cbn in H.
  apply Z.eqb_eq, H.
Qed.

Lemma stamped_byte8 (b : byte) :
  is_byte b -> Z.land b 192 = 128 -> Z.lor (Z.land b 63) 128 = b.
Proof.
  intros Hb.
  assert (H := byte_cases
    (fun b => negb (Z.land b 192 =? 128) || (Z.lor (Z.land b 63) 128 =? b))
    ltac:(vm_compute; reflexivity) b Hb).
  cbv beta in H. intros E. rewrite E in H. cbn in H.
  apply Z.eqb_eq, H.
Qed.

(** X20.  The random strategy can return every UUID of version
    [VersionRandom] and variant [VariantRFC4122]: when the random source
    gives the bytes of such a UUID, the strategy returns it unchanged. *)
Theorem generateV4_fixes_version4 (rand_Read : Reader) (u : UUID) :
  wf_uuid u -> UUID.Version u = VersionRandom ->
  UUID.Variant u = VariantRFC4122 ->
  rand_Read Nil = (u, None) ->
  generateV4 rand_Read = (u, None).
Proof.
  intros [Hlen Hb] Hver Hvar Hread.
  rewrite (generateV4_value rand_Read u Hread).
  pose proof (index_is_byte u 6 Hb) as H6.
  pose proof (index_is_byte u 8 Hb) as H8.
  rewrite (stamped_byte6 _ H6 Hver), store_same.
  assert (E8 : Z.land u.[8] 192 = 128).
  { unfold UUID.Variant in Hvar. rewrite (Variant_of_byte _ H8) in Hvar.
    assert (Hc := byte_cases
      (fun b => negb (variant_of_range b =? VariantRFC4122)
                || (Z.land b 192 =? 128))
      ltac:(vm_compute; reflexivity) _ H8).
    cbv beta in Hc. rewrite Hvar in Hc. apply Z.eqb_eq, Hc. }
  rewrite (stamped_byte8 _ H8 E8), store_same. reflexivity.
Qed.

(** X21.  Two fills of the random source give the same UUID under the
    random strategy exactly when they agree outside the six forced bits:
    in every byte but 6 and 8, in the low nibble of byte 6 and in the low
    six bits of byte 8. *)
Theorem generateV4_same_result (rd1 rd2 : Reader) (r1 r2 : list byte) :
  rd1 Nil = (r1, None) -> rd2 Nil = (r2, None) ->
  wf_uuid r1 -> wf_uuid r2 ->
  (generateV4 rd1 = generateV4 rd2 <->
   (forall i : nat, i <> 6%nat -> i <> 8%nat -> r1.[i] = r2.[i]) /\
   Z.land r1.[6] 15 = Z.land r2.[6] 15 /\
   Z.land r1.[8] 63 = Z.land r2.[8] 63).
Proof.
  intros H1 H2 [Hl1 Hb1] [Hl2 Hb2].
  rewrite (generateV4_value rd1 r1 H1), (generateV4_value rd2 r2 H2).
  destruct (force_nibble r1.[6] 4 (index_is_byte r1 6 Hb1) (or_intror eq_refl))
    as (_ & _ & L61).
  destruct (force_nibble r2.[6] 4 (index_is_byte r2 6 Hb2) (or_intror eq_refl))
    as (_ & _ & L62).
  destruct (force_variant r1.[8] (index_is_byte r1 8 Hb1)) as (_ & _ & _ & L81).
  destruct (force_variant r2.[8] (index_is_byte r2 8 Hb2)) as (_ & _ & _ & L82).
  change (16 * 4) with 64 in L61, L62.
  set (u1 := store _ 8 _). set (u2 := store _ 8 _).
  assert (E16 : u1.[6] = Z.lor (Z.land r1.[6] 15) 64).
  { unfold u1. rewrite index_store_ne by discriminate.
    apply index_store_eq. lia. }
  assert (E26 : u2.[6] = Z.lor (Z.land r2.[6] 15) 64).
  { unfold u2. rewrite index_store_ne by discriminate.
    apply index_store_eq. lia. }
  assert (E18 : u1.[8] = Z.lor (Z.land r1.[8] 63) 128).
  { unfold u1. apply index_store_eq. rewrite length_store. lia. }
  assert (E28 : u2.[8] = Z.lor (Z.land r2.[8] 63) 128).
  { unfold u2. apply index_store_eq. rewrite length_store. lia. }
  assert (Eo1 : forall i : nat, i <> 6%nat -> i <> 8%nat -> u1.[i] = r1.[i]).
  { intros i Hi6 Hi8. unfold u1. rewrite !index_store_ne by congruence.
    reflexivity. }
  assert (Eo2 : forall i : nat, i <> 6%nat -> i <> 8%nat -> u2.[i] = r2.[i]).
  { intros i Hi6 Hi8. unfold u2. rewrite !index_store_ne by congruence.
    reflexivity. }
  split.
  - intros [= E]. split; [|split].
    + intros i Hi6 Hi8. rewrite <- Eo1, <- Eo2 by assumption. congruence.
    + rewrite <- L61, <- L62, <- E16, <- E26. congruence.
    + rewrite <- L81, <- L82, <- E18, <- E28. congruence.
  - intros (Ho & E6 & E8). f_equal. apply index_ext.
    + unfold u1, u2. rewrite !length_store. congruence.
    + intros i _.
      destruct (Nat.eq_dec i 6) as [->|Hi6]; [rewrite E16, E26; congruence|].
      destruct (Nat.eq_dec i 8) as [->|Hi8]; [rewrite E18, E28; congruence|].
      rewrite Eo1, Eo2 by assumption. apply Ho; assumption.
Qed.

(** * The further properties at the sample values *)

Lemma Parse_accepted_variants_witness :
  Parse ("{" ++ UUID.String sample_uuid ++ "}") = (sample_uuid, None) /\
  Parse (hex.EncodeToString sample_uuid) = (sample_uuid, None).
Proof.
  destruct (Parse_accepted_variants sample_uuid) as (H1 & H2 & _); [wf_sample|].
  split; [exact H1|exact H2].
Defined.

Lemma String_injective_witness :
  fst (Parse "{550E8400E29B41D4A716446655440000}") = sample_uuid.
Proof.
  apply String_injective; [wf_sample|wf_sample|reflexivity].
Defined.

Lemma URN_not_parsed_witness :
  Parse (UUID.URN sample_uuid) = (Nil, Some (InvalidLength 41)).
Proof. apply (URN_not_parsed sample_uuid). wf_sample. Defined.

Lemma Version_Variant_ranges_witness :
  UUID.Version sample_uuid = 65 / 16 /\
  (UUID.Variant sample_uuid = VariantRFC4122 <-> 128 <= 167 < 192).
Proof.
  destruct (Version_Variant_ranges sample_uuid) as (Hv & _ & _ & Hr & _);
    [wf_sample|].
  split; [exact Hv|exact Hr].
Defined.

Lemma String_shows_version_witness :
  hex_value (char_at (UUID.String sample_uuid) 14) = Some (UUID.Version sample_uuid).
Proof. apply (String_shows_version sample_uuid). wf_sample. Defined.

Lemma Equal_IsNil_spec_witness :
  (UUID.Equal sample_uuid sample_fill = true <->
   UUID.Compare sample_uuid sample_fill = 0) /\
  UUID.Equal sample_uuid sample_fill = UUID.Equal sample_fill sample_uuid.
Proof.
  destruct (Equal_IsNil_spec sample_uuid sample_fill) as (_ & Hc & _ & Hs & _);
    try wf_sample.
  split; [exact Hc|exact Hs].
Defined.

Lemma generated_not_nil_witness :
  UUID.IsNil (fst (generateV4 sample_Read)) = false /\
  UUID.IsNil (fst (generateV1 sample_Read sample_now)) = false.
Proof.
  destruct (generated_not_nil sample_Read sample_now sample_fill eq_refl)
    as (H4 & H1 & _); [wf_sample|].
  split; [exact H4|exact H1].
Defined.

Lemma Generate_version_witness :
  UUID.Version (fst (Generate (NewGenerator VersionNameBasedMD5) sample_Read sample_now))
  = VersionRandom.
Proof.
  apply (Generate_version VersionNameBasedMD5 sample_Read sample_now sample_fill
           eq_refl).
  wf_sample.
Defined.

Lemma generateV1_clock_wraps_witness :
  generateV1 sample_Read sample_now
  = generateV1 sample_Read (sample_now + 2 ^ 52).
Proof.
  apply (generateV1_clock_wraps sample_Read sample_now (sample_now + 2 ^ 52)).
  vm_compute. reflexivity.
Defined.

Lemma UnmarshalText_MarshalText_witness :
  UUID.UnmarshalText sample_fill (fst (UUID.MarshalText sample_uuid))
  = (sample_uuid, None).
Proof.
  apply (UnmarshalText_MarshalText sample_fill sample_uuid). wf_sample.
Defined.


Lemma UnmarshalJSON_MarshalJSON_witness :
  UUID.UnmarshalJSON sample_json_Unmarshal sample_fill
    (fst (UUID.MarshalJSON sample_json_Marshal sample_uuid))
  = (sample_uuid, None).
Proof.
  apply (UnmarshalJSON_MarshalJSON sample_json_Marshal sample_json_Unmarshal
           sample_fill sample_uuid
           (fst (sample_json_Marshal (UUID.String sample_uuid))));
    [wf_sample|reflexivity|reflexivity].
Defined.

Lemma adapters_keep_sixteen_bytes_witness :
  wf_uuid (fst (UUID.UnmarshalText sample_uuid [123; 125])) /\
  wf_uuid (fst (UUID.Scan sample_uuid (UUID.VBytes sample_fill))).
Proof.
  destruct (adapters_keep_sixteen_bytes sample_json_Unmarshal sample_uuid)
    as (Ht & _ & _ & Hb & _); [wf_sample|].
  split; [exact (Ht [123; 125])|].
  apply Hb. apply (proj2 (proj1 (wf_uuidb_spec sample_fill) eq_refl)).
Defined.

Lemma Compare_String_order_witness :
  UUID.Compare sample_uuid sample_fill
  = string_compare (UUID.String sample_uuid) (UUID.String sample_fill).
Proof. apply Compare_String_order; wf_sample. Defined.

Lemma generateV4_fixes_version4_witness :
  generateV4 (fun _ => (sample_uuid, None)) = (sample_uuid, None).
Proof.
  apply generateV4_fixes_version4; [wf_sample|reflexivity|reflexivity|reflexivity].
Defined.

Lemma generateV4_same_result_witness :
  generateV4 sample_Read = generateV4 (fun _ => (fst (generateV4 sample_Read), None)).
Proof.
  apply (generateV4_same_result sample_Read
           (fun _ => (fst (generateV4 sample_Read), None))
           sample_fill (fst (generateV4 sample_Read)) eq_refl eq_refl);
    try wf_sample.
  split; [|split; reflexivity].
  intros i H6 H8.
  do 16 (destruct i as [|i]; [first [reflexivity|contradiction]|]).
  reflexivity.
Defined.
